(** * UniswapV4SlotFinder: storage-slot derivation, packed-word decoding,
      pool identifiers and slot probing

    A shallow embedding of the scripts under [UniswapV4SlotFinder/]:
    - [Uniswapv4PoolReader.js]  (class [UniswapV4PoolReader]),
    - [storageSlot.js]          (class [StorageSlotFinder]),
    - [debug.js]                (the two ways of computing one slot);
    [testAlchemy.js] repeats the slot computation and the probing loop of
    [storageSlot.js] against another endpoint and is not modelled apart.

    JavaScript values are modelled as the scripts hold them: hex words and
    addresses are strings, [BigInt]s are [Z] (the operators [&], [>>], [<<] on
    BigInt are [Z.land], [Z.shiftr], [Z.shiftl]: both work on unbounded
    two's-complement integers), byte sequences are [list byte].  Console
    output and the 100 ms pause between two probes are not modelled. *)

From Stdlib Require Import ZArith List String Ascii Lia Bool.
From Stdlib Require Import DecimalString DecimalPos DecimalZ.
From Stdlib.Strings Require Import Byte.
Import ListNotations.
Local Open Scope Z_scope.

(** ** Outcomes of a call: a returned value or a thrown error *)

Inductive Error : Type :=
| EncodingError                    (* a value that does not fit its declared ABI type *)
| ReaderFailure (message : string) (* a rejected storage read *).

Inductive Outcome (A : Type) : Type :=
| Return (a : A)
| Throw (e : Error).
Arguments Return {A} a.
Arguments Throw {A} e.

Definition bindOutcome {A B : Type} (m : Outcome A) (k : A -> Outcome B) : Outcome B :=
  match m with
  | Return a => k a
  | Throw e => Throw e
  end.

Notation "'do' x <- m ; k" := (bindOutcome m (fun x => k))
  (at level 10, x name, m at level 100, k at level 200).

(** ** Characters, hex digits and hex strings *)

Definition charCode (c : ascii) : Z := Z.of_N (N_of_ascii c).

Definition fromCharCode (z : Z) : ascii := ascii_of_N (Z.to_N z).

(** [String.prototype.toLowerCase] on the code units the scripts use: the
    letters [A]..[Z] move to [a]..[z], every other 8-bit unit is kept. *)
Definition toLowerCaseChar (c : ascii) : ascii :=
  if (65 <=? charCode c) && (charCode c <=? 90) then fromCharCode (charCode c + 32) else c.

Fixpoint toLowerCase (s : string) : string :=
  match s with
  | EmptyString => EmptyString
  | String c r => String (toLowerCaseChar c) (toLowerCase r)
  end.

Definition hexDigitValue (c : ascii) : option Z :=
  let n := charCode c in
  if (48 <=? n) && (n <=? 57) then Some (n - 48)
  else if (97 <=? n) && (n <=? 102) then Some (n - 87)
  else if (65 <=? n) && (n <=? 70) then Some (n - 55)
  else None.

(** Value of a run of hex digits, most significant digit first, continuing
    the value [acc] read so far. *)
Fixpoint parseHexDigits (acc : Z) (s : string) : option Z :=
  match s with
  | EmptyString => Some acc
  | String c r =>
      match hexDigitValue c with
      | Some d => parseHexDigits (16 * acc + d) r
      | None => None
      end
  end.

Definition stripHexPrefix (s : string) : option string :=
  match s with
  | String c0 (String c1 r) =>
      if Ascii.eqb c0 "0" && Ascii.eqb c1 "x" then Some r else None
  | _ => None
  end.

Definition hexDigitChar (d : Z) : ascii :=
  if d <? 10 then fromCharCode (48 + d) else fromCharCode (87 + d).

Definition byteValue (b : byte) : Z := Z.of_N (Byte.to_N b).

Definition byteOfZ (z : Z) : byte :=
  match Byte.of_N (Z.to_N (z mod 256)) with
  | Some b => b
  | None => x00
  end.

Fixpoint hexOfBytes (bs : list byte) : string :=
  match bs with
  | [] => EmptyString
  | b :: r =>
      String (hexDigitChar (byteValue b / 16))
        (String (hexDigitChar (byteValue b mod 16)) (hexOfBytes r))
  end.

(** [ethers.hexlify]: the lower-case, [0x]-prefixed rendering of a byte
    sequence; every hex string ethers returns has this shape. *)
Definition hexlify (bs : list byte) : string :=
  String "0" (String "x" (hexOfBytes bs)).

Fixpoint bytesOfHex (s : string) : option (list byte) :=
  match s with
  | EmptyString => Some []
  | String hi (String lo r) =>
      match hexDigitValue hi, hexDigitValue lo, bytesOfHex r with
      | Some h, Some l, Some bs => Some (byteOfZ (16 * h + l) :: bs)
      | _, _, _ => None
      end
  | String _ EmptyString => None
  end.

(** [ethers.getBytes] on a string, which tests it against
    [/^0x(?:[0-9a-f][0-9a-f])*$/i]: the prefix [0x] or [0X] followed by an
    even number of hex digits of either case. *)
Definition getBytes (s : string) : option (list byte) :=
  match s with
  | String c0 (String c1 body) =>
      if Ascii.eqb c0 "0" && (Ascii.eqb c1 "x" || Ascii.eqb c1 "X")
      then bytesOfHex body else None
  | _ => None
  end.

(** The [n] low-order bytes of [v], most significant byte first. *)
Fixpoint toBeBytes (n : nat) (v : Z) : list byte :=
  match n with
  | O => []
  | S k => toBeBytes k (v / 256) ++ [byteOfZ v]
  end.

(** Big-endian value of a byte sequence. *)
Definition beValue (bs : list byte) : Z :=
  fold_left (fun acc b => 256 * acc + byteValue b) bs 0.

(** ** BigInt *)

(** [BigInt(s)] for a hex literal: [0x] or [0X] and at least one hex digit.
    [None] stands for every other string: the decimal, binary and octal
    literals and the padded forms that BigInt also reads, and the strings on
    which it throws a SyntaxError; none of them is a storage word. *)
Definition BigInt (s : string) : option Z :=
  match s with
  | String c0 (String c1 (String c r)) =>
      if Ascii.eqb c0 "0" && (Ascii.eqb c1 "x" || Ascii.eqb c1 "X")
      then parseHexDigits 0 (String c r)
      else None
  | _ => None
  end.

(** [BigInt.prototype.toString()]: decimal digits, a leading [-] when
    negative. *)
Definition BigInt_toString (z : Z) : string := NilZero.string_of_int (Z.to_int z).

(** ** More string methods *)

(** [String.prototype.toUpperCase] on the code units the scripts use: the
    letters [a]..[z] move to [A]..[Z], every other 8-bit unit is kept. *)
Definition toUpperCaseChar (c : ascii) : ascii :=
  if (97 <=? charCode c) && (charCode c <=? 122) then fromCharCode (charCode c - 32) else c.

Fixpoint toUpperCase (s : string) : string :=
  match s with
  | EmptyString => EmptyString
  | String c r => String (toUpperCaseChar c) (toUpperCase r)
  end.

(** [s.slice(2)]: the string without its first two code units, empty when it
    has no more than two. *)
Definition slice2 (s : string) : string :=
  match s with
  | String _ (String _ r) => r
  | _ => EmptyString
  end.

Fixpoint repeatChar (n : nat) (c : ascii) : string :=
  match n with
  | O => EmptyString
  | S k => String c (repeatChar k c)
  end.

(** [s.padStart(n, c)] with a filler of one code unit. *)
Definition padStart (n : nat) (c : ascii) (s : string) : string :=
  (repeatChar (n - String.length s) c ++ s)%string.

Fixpoint allHexDigits (s : string) : bool :=
  match s with
  | EmptyString => true
  | String c r =>
      match hexDigitValue c with
      | Some _ => allHexDigits r
      | None => false
      end
  end.

(** The test of the regular expression [/^0x[0-9a-fA-F]{64}$/]. *)
Definition slotRegex (s : string) : bool :=
  match stripHexPrefix s with
  | Some body => Nat.eqb (String.length body) 64 && allHexDigits body
  | None => false
  end.

(** ** Keccak-256 *)

(** The scripts call [ethers.keccak256], which is not part of the sources.
    The properties below hold for any digest function; the Keccak-256 sponge
    of this module (rate 136 bytes, 24 rounds of the permutation on 25 lanes
    of 64 bits) is the instance the concrete examples run. *)
Module Keccak.

(** The state: 25 lanes of 64 bits, lane [(x, y)] at position [x + 5 y]. *)
Definition State : Type := list Z.

Definition lane (s : State) (x y : nat) : Z := nth (x mod 5 + 5 * (y mod 5)) s 0.

Definition lanes (f : nat -> nat -> Z) : State :=
  map (fun i => f (i mod 5)%nat (i / 5)%nat) (seq 0 25).

Definition rotl64 (v n : Z) : Z :=
  Z.land (Z.lor (Z.shiftl v n) (Z.shiftr v (64 - n))) (Z.ones 64).

Definition rotationOffsets : list Z :=
  [ 0;  1; 62; 28; 27;
   36; 44;  6; 55; 20;
    3; 10; 43; 25; 39;
   41; 45; 15; 21;  8;
   18;  2; 61; 56; 14].

Definition roundConstants : list Z :=
  [0x0000000000000001; 0x0000000000008082; 0x800000000000808A; 0x8000000080008000;
   0x000000000000808B; 0x0000000080000001; 0x8000000080008081; 0x8000000000008009;
   0x000000000000008A; 0x0000000000000088; 0x0000000080008009; 0x000000008000000A;
   0x000000008000808B; 0x800000000000008B; 0x8000000000008089; 0x8000000000008003;
   0x8000000000008002; 0x8000000000000080; 0x000000000000800A; 0x800000008000000A;
   0x8000000080008081; 0x8000000000008080; 0x0000000080000001; 0x8000000080008008].

Definition theta (s : State) : State :=
  let c := map (fun x => Z.lxor (lane s x 0) (Z.lxor (lane s x 1) (Z.lxor (lane s x 2)
                 (Z.lxor (lane s x 3) (lane s x 4))))) (seq 0 5) in
  let d := map (fun x => Z.lxor (nth ((x + 4) mod 5) c 0) (rotl64 (nth ((x + 1) mod 5) c 0) 1))
               (seq 0 5) in
  lanes (fun x y => Z.lxor (lane s x y) (nth x d 0)).

(** Lane [(x, y)] moves to [(y, 2x + 3y)], rotated by its offset. *)
Definition rhoPi (s : State) : State :=
  lanes (fun x y =>
           let x0 := ((x + 3 * y) mod 5)%nat in
           rotl64 (lane s x0 x) (nth (x0 + 5 * x) rotationOffsets 0)).

Definition chi (s : State) : State :=
  lanes (fun x y =>
           Z.lxor (lane s x y) (Z.land (Z.lnot (lane s (x + 1) y)) (lane s (x + 2) y))).

Definition iota (rc : Z) (s : State) : State :=
  match s with
  | l :: r => Z.lxor l rc :: r
  | [] => []
  end.

Definition round (s : State) (rc : Z) : State := iota rc (chi (rhoPi (theta s))).

Definition keccakF1600 (s : State) : State := fold_left round roundConstants s.

Definition rate : nat := 136.

(** Padding of Keccak-256: a 1 bit, zeros, a final 1 bit, up to a multiple
    of the rate. *)
Definition pad (message : list byte) : list byte :=
  let fill := (rate - 1 - (List.length message) mod rate)%nat in
  match fill with
  | O => message ++ [byteOfZ 0x81]
  | S k => message ++ [byteOfZ 0x01] ++ repeat x00 k ++ [byteOfZ 0x80]
  end.

Fixpoint leValue (bs : list byte) : Z :=
  match bs with
  | [] => 0
  | b :: r => byteValue b + 256 * leValue r
  end.

Fixpoint toLeBytes (n : nat) (v : Z) : list byte :=
  match n with
  | O => []
  | S k => byteOfZ v :: toLeBytes k (v / 256)
  end.

Fixpoint blockLanes (n : nat) (block : list byte) : list Z :=
  match n with
  | O => []
  | S k => leValue (firstn 8 block) :: blockLanes k (skipn 8 block)
  end.

Fixpoint xorLanes (s block : list Z) : State :=
  match s, block with
  | l :: s', b :: block' => Z.lxor l b :: xorLanes s' block'
  | _, [] => s
  | [], _ => []
  end.

Fixpoint absorb (blocks : nat) (s : State) (data : list byte) : State :=
  match blocks with
  | O => s
  | S k =>
      absorb k (keccakF1600 (xorLanes s (blockLanes 17 (firstn rate data))))
             (skipn rate data)
  end.

(** Modelled from the spec: the Cryptographic Hasher, a deterministic map
    from a byte sequence to a 32-byte digest of the Keccak-256 family: pad,
    absorb block by block, and return the first 32 bytes of the state. *)
Definition keccak256 (message : list byte) : list byte :=
  let padded := pad message in
  let s := absorb (List.length padded / rate) (repeat 0 25) padded in
  flat_map (toLeBytes 8) (firstn 4 s).

End Keccak.

(** ** The ABI coder and the hasher of the ethers library *)

Inductive AbiType : Type :=
| TUint (bits : Z)
| TInt (bits : Z)
| TAddress
| TBytes (size : Z).

(** The values the scripts hand to the coder: strings and integers.  An
    integer stands for a number or for a BigInt of that value, which the
    coder takes alike. *)
Inductive JsValue : Type :=
| JsString (s : string)
| JsNumber (n : Z).

Definition validWidth (bits : Z) : bool :=
  (8 <=? bits) && (bits <=? 256) && (bits mod 8 =? 0).

Fixpoint hasUpperHexLetter (s : string) : bool :=
  match s with
  | EmptyString => false
  | String c r =>
      ((65 <=? charCode c) && (charCode c <=? 70)) || hasUpperHexLetter r
  end.

Fixpoint hasLowerHexLetter (s : string) : bool :=
  match s with
  | EmptyString => false
  | String c r =>
      ((97 <=? charCode c) && (charCode c <=? 102)) || hasLowerHexLetter r
  end.

(** The test of [/([A-F].*[a-f])|([a-f].*[A-F])/] on a run of hex digits:
    it has a letter of each case. *)
Definition hasMixedCase (body : string) : bool :=
  hasUpperHexLetter body && hasLowerHexLetter body.

Definition asciiBytes (s : string) : list byte :=
  map byte_of_ascii (list_ascii_of_string s).

Fixpoint nibbles (bs : list byte) : list Z :=
  match bs with
  | [] => []
  | b :: r => byteValue b / 16 :: byteValue b mod 16 :: nibbles r
  end.

Fixpoint raiseByNibbles (s : string) (ns : list Z) : string :=
  match s, ns with
  | String c r, n :: ns' =>
      String (if 8 <=? n then toUpperCaseChar c else c) (raiseByNibbles r ns')
  | _, _ => s
  end.

(** The check-summed spelling of forty lower-case hex digits: digit [i] is
    upper-cased when nibble [i] of the Keccak-256 digest of the forty
    characters is 8 or more. *)
Definition checksumBody (lowerBody : string) : string :=
  raiseByNibbles lowerBody (nibbles (Keccak.keccak256 (asciiBytes lowerBody))).

(** The digits of an address: what follows the prefix [0x], or the whole
    string when it has no such prefix. *)
Definition addressBody (s : string) : string :=
  match stripHexPrefix s with
  | Some body => body
  | None => s
  end.

(** The test of [/^(0x)?[0-9a-fA-F]{40}$/]: forty hex digits, with or
    without the prefix [0x]. *)
Definition isHexAddress (s : string) : bool :=
  Nat.eqb (String.length (addressBody s)) 40 && allHexDigits (addressBody s).

Definition isDecimalDigit (c : ascii) : bool :=
  (48 <=? charCode c) && (charCode c <=? 57).

(** The value of a digit in base 36, the letters in either case; on the
    digits and the upper-case letters this is also the table [ibanLookup]. *)
Definition base36DigitValue (c : ascii) : option Z :=
  let n := charCode c in
  if (48 <=? n) && (n <=? 57) then Some (n - 48)
  else if (97 <=? n) && (n <=? 122) then Some (n - 87)
  else if (65 <=? n) && (n <=? 90) then Some (n - 55)
  else None.

Fixpoint allBase36Digits (s : string) : bool :=
  match s with
  | EmptyString => true
  | String c r =>
      match base36DigitValue c with
      | Some _ => allBase36Digits r
      | None => false
      end
  end.

(** [fromBase36], continuing the value [acc] read so far. *)
Fixpoint fromBase36 (acc : Z) (s : string) : option Z :=
  match s with
  | EmptyString => Some acc
  | String c r =>
      match base36DigitValue c with
      | Some d => fromBase36 (36 * acc + d) r
      | None => None
      end
  end.

(** The number whose decimal digits are the entries of [ibanLookup] for the
    characters of [s], joined: a digit gives one decimal digit, a letter
    two. *)
Fixpoint ibanNumber (acc : Z) (s : string) : option Z :=
  match s with
  | EmptyString => Some acc
  | String c r =>
      match base36DigitValue c with
      | Some d => ibanNumber (if d <? 10 then 10 * acc + d else 100 * acc + d) r
      | None => None
      end
  end.

(** [ibanChecksum] of the address [XE], two digits and [body], as a number:
    98 minus the remainder modulo 97 of the number spelled by [body], [XE]
    and [00].  The source reduces that number fifteen digits at a time,
    which keeps its remainder. *)
Definition ibanChecksum (body : string) : option Z :=
  option_map (fun n => 98 - n mod 97) (ibanNumber 0 (body ++ "XE00")).

(** The ICAP branch of [ethers.getAddress]: a string that matches
    [/^XE[0-9]{2}[0-9A-Za-z]{30,31}$/] and whose two digits are its
    checksum is the base-36 number of its last 30 or 31 characters.  The
    hex digits of that number are padded to forty but never cut: 31
    characters can spell a number of more than 160 bits. *)
Definition fromIcap (s : string) : option Z :=
  match s with
  | String c0 (String c1 (String d1 (String d2 body))) =>
      if Ascii.eqb c0 "X" && Ascii.eqb c1 "E" && isDecimalDigit d1 && isDecimalDigit d2
         && (Nat.eqb (String.length body) 30 || Nat.eqb (String.length body) 31)
         && allBase36Digits body
      then
        match ibanChecksum body with
        | Some checksum =>
            if 10 * (charCode d1 - 48) + (charCode d2 - 48) =? checksum
            then fromBase36 0 body
            else None
        | None => None
        end
      else None
  | _ => None
  end.

(** [ethers.getAddress] on a string, read as the unsigned integer the coder
    writes.  Forty hex digits, with or without the prefix [0x], are an
    address; when the digits have letters of both cases they must be the
    check-summed spelling.  Any other string must be an ICAP address.
    [None] stands for the strings on which [getAddress] throws. *)
Definition parseAddress (s : string) : option Z :=
  if isHexAddress s then
    let body := addressBody s in
    if hasMixedCase body && negb (String.eqb (checksumBody (toLowerCase body)) body)
    then None
    else parseHexDigits 0 body
  else fromIcap s.

(** Modelled from the spec: the Structured Encoder ([AbiCoder.encode] of the
    ethers library, which is not part of the sources).  One value becomes one
    32-byte word: an unsigned integer or an address left-padded with zeros, a
    signed integer sign-extended (the floor division of [toBeBytes] extends
    the sign), a [bytesM] value right-padded as the ABI rule has it; a value
    outside its declared width is an [EncodingError]. *)
Definition encodeValue (t : AbiType) (v : JsValue) : Outcome (list byte) :=
  match t, v with
  | TUint bits, JsNumber n =>
      if validWidth bits && (0 <=? n) && (n <? 2 ^ bits)
      then Return (toBeBytes 32 n) else Throw EncodingError
  | TInt bits, JsNumber n =>
      if validWidth bits && (- 2 ^ (bits - 1) <=? n) && (n <? 2 ^ (bits - 1))
      then Return (toBeBytes 32 n) else Throw EncodingError
  | TAddress, JsString s =>
      match parseAddress s with
      | Some a => Return (toBeBytes 32 a)
      | None => Throw EncodingError
      end
  | TBytes size, JsString s =>
      match getBytes s with
      | Some bs =>
          if (1 <=? size) && (size <=? 32) && (Z.of_nat (List.length bs) =? size)
          then Return (bs ++ repeat x00 (32 - List.length bs)) else Throw EncodingError
      | None => Throw EncodingError
      end
  | _, _ => Throw EncodingError
  end.

(** Modelled from the spec: the encoding of a static tuple is the
    concatenation of the words of its values, in input order. *)
Fixpoint AbiCoder_encode (types : list AbiType) (values : list JsValue)
  : Outcome (list byte) :=
  match types, values with
  | [], [] => Return []
  | t :: types', v :: values' =>
      do w <- encodeValue t v;
      do rest <- AbiCoder_encode types' values';
      Return (w ++ rest)
  | _, _ => Throw EncodingError
  end.

(** Modelled from the spec: [ethers.solidityPacked], absent from the sources,
    is the tightly packed encoding: each value takes exactly the bytes of its
    declared width ([bits/8] for an integer, 20 for an address, [M] for
    [bytesM]) and nothing pads it. *)
Definition packValue (t : AbiType) (v : JsValue) : Outcome (list byte) :=
  match t, v with
  | TUint bits, JsNumber n =>
      if validWidth bits && (0 <=? n) && (n <? 2 ^ bits)
      then Return (toBeBytes (Z.to_nat (bits / 8)) n) else Throw EncodingError
  | TInt bits, JsNumber n =>
      if validWidth bits && (- 2 ^ (bits - 1) <=? n) && (n <? 2 ^ (bits - 1))
      then Return (toBeBytes (Z.to_nat (bits / 8)) n) else Throw EncodingError
  | TAddress, JsString s =>
      match parseAddress s with
      | Some a => if a <? 2 ^ 160 then Return (toBeBytes 20 a) else Throw EncodingError
      | None => Throw EncodingError
      end
  | TBytes size, JsString s =>
      match getBytes s with
      | Some bs =>
          if (1 <=? size) && (size <=? 32) && (Z.of_nat (List.length bs) =? size)
          then Return bs else Throw EncodingError
      | None => Throw EncodingError
      end
  | _, _ => Throw EncodingError
  end.

(** Modelled from the spec: the packed encoding of a tuple is the
    concatenation of the packed values, in input order. *)
Fixpoint solidityPacked (types : list AbiType) (values : list JsValue)
  : Outcome (list byte) :=
  match types, values with
  | [], [] => Return []
  | t :: types', v :: values' =>
      do w <- packValue t v;
      do rest <- solidityPacked types' values';
      Return (w ++ rest)
  | _, _ => Throw EncodingError
  end.

(** [ethers.keccak256]: the digest of a byte sequence, returned as a hex
    string.  The digest function itself is a parameter of the development. *)
Definition Hasher : Type := list byte -> list byte.

Definition ethers_keccak256 (keccak256 : Hasher) (data : list byte) : string :=
  hexlify (keccak256 data).

Definition ZeroAddress : string := "0x0000000000000000000000000000000000000000".

Definition ZeroWord : string :=
  "0x0000000000000000000000000000000000000000000000000000000000000000".

(** ** Calls to the node *)

(** The answer of the node to one storage read: the promise resolves with a
    hex word or rejects with a message. *)
Inductive StorageReply : Type :=
| Resolved (data : string)
| Rejected (message : string).

(** The storage-read collaborator: contract address and slot to reply. *)
Definition Provider : Type := string -> string -> StorageReply.

Definition Request : Type := (string * string)%type.

(** An asynchronous computation: it extends the list of reads sent to the
    node so far and ends with a value or a thrown error. *)
Definition Async (A : Type) : Type := list Request -> Outcome A * list Request.

Definition ret {A : Type} (a : A) : Async A := fun sent => (Return a, sent).

Definition throw {A : Type} (e : Error) : Async A := fun sent => (Throw e, sent).

Definition bind {A B : Type} (m : Async A) (k : A -> Async B) : Async B :=
  fun sent =>
    match m sent with
    | (Return a, sent') => k a sent'
    | (Throw e, sent') => (Throw e, sent')
    end.

Definition tryCatch {A : Type} (body : Async A) (handler : Error -> Async A) : Async A :=
  fun sent =>
    match body sent with
    | (Return a, sent') => (Return a, sent')
    | (Throw e, sent') => handler e sent'
    end.

Definition liftOutcome {A : Type} (o : Outcome A) : Async A := fun sent => (o, sent).

Definition readStorage (provider : Provider) (address slot : string) : Async string :=
  fun sent =>
    (match provider address slot with
     | Resolved data => Return data
     | Rejected message => Throw (ReaderFailure message)
     end, sent ++ [(address, slot)]).

Notation "'await' x <- m ; k" := (bind m (fun x => k))
  (at level 10, x name, m at level 100, k at level 200).

(** Truthiness of a value that is a string or [null]. *)
Definition truthy (data : option string) : bool :=
  match data with
  | Some s => negb (String.eqb s EmptyString)
  | None => false
  end.

(** ** Uniswapv4PoolReader.js *)

Module UniswapV4PoolReader.

Definition POOL_STATE_SLOT : Z := 6.

(** The object [decodePoolState] returns: every number as its decimal
    string, and the raw word as it came. *)
Record PoolState : Type := mkPoolState {
  sqrtPriceX96 : string;
  tick : string;
  protocolFee : string;
  lpFee : string;
  rawData : string
}.

(** The constants of [decodePoolState], each as a function of [data]. *)
Definition sqrtPriceX96_of (data : Z) : Z := Z.land data (Z.shiftl 1 160 - 1).

Definition tick_of (data : Z) : Z := Z.land (Z.shiftr data 160) (Z.shiftl 1 24 - 1).

Definition protocolFee_of (data : Z) : Z := Z.land (Z.shiftr data 184) (Z.shiftl 1 24 - 1).

Definition lpFee_of (data : Z) : Z := Z.land (Z.shiftr data 208) (Z.shiftl 1 24 - 1).

Definition maxTickValue : Z := Z.shiftl 1 23 - 1.

Definition signedTick_of (data : Z) : Z :=
  let tick := tick_of data in
  if tick >? maxTickValue then tick - Z.shiftl 1 24 else tick.

Definition decodePoolState (rawData : string) : option PoolState :=
  match BigInt rawData with
  | Some data =>
      Some {| sqrtPriceX96 := BigInt_toString (sqrtPriceX96_of data);
              tick := BigInt_toString (signedTick_of data);
              protocolFee := BigInt_toString (protocolFee_of data);
              lpFee := BigInt_toString (lpFee_of data);
              rawData := rawData |}
  | None => None
  end.

Section WithHasher.

Variable keccak256 : Hasher.

Definition calculatePoolStorageSlot (poolId : string) : Outcome string :=
  do encodedSlot <- AbiCoder_encode [TBytes 32; TUint 256]
                      [JsString poolId; JsNumber POOL_STATE_SLOT];
  Return (ethers_keccak256 keccak256 encodedSlot).

(** The contract call [extsload(bytes32)] goes to the same node as a
    storage read of the pool manager. *)
Definition readPoolStateRaw (provider : Provider) (poolManagerAddress poolId : string)
  : Async string :=
  tryCatch
    (await storageSlot <- liftOutcome (calculatePoolStorageSlot poolId);
     await rawData <- readStorage provider poolManagerAddress storageSlot;
     ret rawData)
    (fun error => throw error).

(** Lines 139-141: the pair [[token0, token1]]. *)
Definition sortCurrencies (currency0 currency1 : string) : string * string :=
  if String.ltb (toLowerCase currency0) (toLowerCase currency1)
  then (currency0, currency1)
  else (currency1, currency0).

(** The default of the last parameter, [hookAddress = ethers.ZeroAddress]:
    [None] is a call that leaves the argument out. *)
Definition hookOrZero (hookAddress : option string) : string :=
  match hookAddress with Some h => h | None => ZeroAddress end.

Definition calculatePoolId (currency0 currency1 : string) (fee tickSpacing : Z)
    (hookAddress : option string) : Outcome string :=
  let hookAddress := hookOrZero hookAddress in
  let '(token0, token1) := sortCurrencies currency0 currency1 in
  do encodedParams <- AbiCoder_encode
                        [TAddress; TAddress; TUint 24; TInt 24; TAddress]
                        [JsString token0; JsString token1; JsNumber fee;
                         JsNumber tickSpacing; JsString hookAddress];
  Return (ethers_keccak256 keccak256 encodedParams).

End WithHasher.

End UniswapV4PoolReader.

(** ** storageSlot.js *)

Module StorageSlotFinder.

Definition POOL_MANAGER_ADDRESS : string := "0x05E73354cFDd6745C338b50BcFDfA3Aa6fA03408".

Definition KNOWN_POOL_ID : string :=
  "0x2b12523c52f9376439968e70e1f10ccc106ac80781bf40b0c8eeb2c19a22382e".

Definition EXPECTED_RAW_DATA : string :=
  "0x000000004e20000000fd435c000000000000000000085a6afa601db20218ff54".

Section WithHasher.

Variable keccak256 : Hasher.

Definition calculateStorageSlot (poolId : string) (slotNumber : Z) : Outcome string :=
  do encodedSlot <- AbiCoder_encode [TBytes 32; TUint 256]
                      [JsString poolId; JsNumber slotNumber];
  Return (ethers_keccak256 keccak256 encodedSlot).

Variable provider : Provider.

(** The rejected read is caught here and [null] is returned in its place. *)
Definition readStorageSlot (storageSlot : string) : Async (option string) :=
  tryCatch
    (await data <- readStorage provider POOL_MANAGER_ADDRESS storageSlot;
     ret (Some data))
    (fun error => ret None).

(** The loop of [findCorrectPoolsSlot], with the pool id, the expected
    word and the two bounds of the script taken as arguments:
    [iterations] counts the values of [slotNumber] still to visit. *)
Fixpoint probeFrom (poolId expected : string) (iterations : nat) (slotNumber : Z)
  : Async (option Z) :=
  match iterations with
  | O => ret None
  | S remaining =>
      await storageSlot <- liftOutcome (calculateStorageSlot poolId slotNumber);
      await data <- readStorageSlot storageSlot;
      if truthy data then
        match data with
        | Some word =>
            if String.eqb word expected then ret (Some slotNumber)
            else probeFrom poolId expected remaining (slotNumber + 1)
        | None => probeFrom poolId expected remaining (slotNumber + 1)
        end
      else probeFrom poolId expected remaining (slotNumber + 1)
  end.

(** [for (slotNumber = first; slotNumber <= last; slotNumber++)]. *)
Definition probe (poolId expected : string) (first last : Z) : Async (option Z) :=
  probeFrom poolId expected (Z.to_nat (last + 1 - first)) first.

Definition findCorrectPoolsSlot : Async (option Z) :=
  probe KNOWN_POOL_ID EXPECTED_RAW_DATA 0 20.

(** What [testSpecificSlots] prints for one slot number: that the slot is
    empty, or the word with the two numbers decoded from it and whether the
    line "looks like valid pool data" follows.  [SlotNotHex] stands for a
    reply that is no hex literal, which [BigInt] reads in another notation
    or rejects (the script then prints that it could not decode). *)
Inductive SlotReport : Type :=
| SlotEmpty (slot : Z)
| SlotDecoded (slot : Z) (data sqrtPriceX96 tick : string) (looksValid : bool)
| SlotNotHex (slot : Z) (data : string).

(** The body of the loop of [testSpecificSlots] after the read. *)
Definition reportSlot (slot : Z) (data : option string) : SlotReport :=
  match data with
  | Some word =>
      if truthy data && negb (String.eqb word ZeroWord) then
        match BigInt word with
        | Some bigIntData =>
            let sqrtPriceX96 := Z.land bigIntData (Z.shiftl 1 160 - 1) in
            let tick := Z.land (Z.shiftr bigIntData 160) (Z.shiftl 1 24 - 1) in
            SlotDecoded slot word (BigInt_toString sqrtPriceX96) (BigInt_toString tick)
              ((sqrtPriceX96 >? 0) && (tick >? 0))
        | None => SlotNotHex slot word
        end
      else SlotEmpty slot
  | None => SlotEmpty slot
  end.

(** [for (const slot of likelySlots)]: the function returns nothing, the
    lines it prints are collected slot by slot. *)
Fixpoint testSlots (likelySlots : list Z) : Async (list SlotReport) :=
  match likelySlots with
  | [] => ret []
  | slot :: rest =>
      await storageSlot <- liftOutcome (calculateStorageSlot KNOWN_POOL_ID slot);
      await data <- readStorageSlot storageSlot;
      await reports <- testSlots rest;
      ret (reportSlot slot data :: reports)
  end.

Definition testSpecificSlots : Async (list SlotReport) :=
  testSlots [0; 1; 2; 3; 4; 5; 6; 7; 8; 9; 10].

End WithHasher.

End StorageSlotFinder.

(** ** debug.js *)

Module Debug.

Definition poolId : string :=
  "0x2b12523c52f9376439968e70e1f10ccc106ac80781bf40b0c8eeb2c19a22382e".

Definition POOL_STATE_SLOT : Z := 6.

Definition encodedSlot : Outcome (list byte) :=
  AbiCoder_encode [TBytes 32; TUint 256] [JsString poolId; JsNumber POOL_STATE_SLOT].

Definition manualEncoded : Outcome (list byte) :=
  solidityPacked [TBytes 32; TUint 256] [JsString poolId; JsNumber POOL_STATE_SLOT].

Section WithHasher.

Variable keccak256 : Hasher.

Definition calculatedSlot : Outcome string :=
  do encoded <- encodedSlot; Return (ethers_keccak256 keccak256 encoded).

Definition manualHash : Outcome string :=
  do encoded <- manualEncoded; Return (ethers_keccak256 keccak256 encoded).

(** The values [debug.js] derives from [calculatedSlot] and prints. *)
Definition isValidHex : Outcome bool :=
  do slot <- calculatedSlot; Return (slotRegex slot).

Definition hexPart : Outcome string :=
  do slot <- calculatedSlot; Return (slice2 slot).

(** Option C, [calculatedSlot.toUpperCase()]. *)
Definition optionC : Outcome string :=
  do slot <- calculatedSlot; Return (toUpperCase slot).

(** Option D and Format 4, [calculatedSlot.slice(2).toLowerCase()]. *)
Definition optionD : Outcome string :=
  do slot <- calculatedSlot; Return (toLowerCase (slice2 slot)).

(** Format 3, [calculatedSlot.toLowerCase()]. *)
Definition format3 : Outcome string :=
  do slot <- calculatedSlot; Return (toLowerCase slot).

(** [BigInt(calculatedSlot).toString()]; [None] when the slot is no hex
    literal (see [BigInt]). *)
Definition decimalValue : Outcome (option string) :=
  do slot <- calculatedSlot; Return (option_map BigInt_toString (BigInt slot)).

(** Option F, ["0x" + hexPart.padStart(64, '0')]. *)
Definition optionF : Outcome string :=
  do part <- hexPart; Return (String "0" (String "x" (padStart 64 "0" part))).

End WithHasher.

End Debug.

(** ** Vocabulary of the statements *)

(** The [count] integers from [first] on, in ascending order. *)
Definition indices (first : Z) (count : nat) : list Z :=
  map (fun k => first + Z.of_nat k) (seq 0 count).

(** [Number.MAX_SAFE_INTEGER]: up to it the loop counter, a JavaScript
    number, counts exactly. *)
Definition MAX_SAFE_INTEGER : Z := 2 ^ 53 - 1.

(** The word that holds four field values at the offsets [decodePoolState]
    reads, with [top] in the 24 bits above them; the tick is stored in
    two's complement.  The scripts have no encoder: this is the inverse used
    to state the round trip. *)
Definition packPoolState (sqrtPriceX96 tick protocolFee lpFee top : Z) : Z :=
  sqrtPriceX96 + 2 ^ 160 * (tick mod 2 ^ 24) + 2 ^ 184 * protocolFee
  + 2 ^ 208 * lpFee + 2 ^ 232 * top.

(** Whether a string starts with the prefix [0x]. *)
Definition hasHexPrefix (s : string) : bool :=
  match stripHexPrefix s with
  | Some _ => true
  | None => false
  end.

(** Two addresses written as hex digits in the same form: both with the
    prefix [0x], or both without it. *)
Definition sameHexForm (s1 s2 : string) : bool :=
  isHexAddress s1 && isHexAddress s2 && Bool.eqb (hasHexPrefix s1) (hasHexPrefix s2).

(** The integer a decimal string denotes, to read the strings of the object
    [decodePoolState] returns. *)
Definition decimalOf (s : string) : option Z :=
  option_map Z.of_int (NilZero.int_of_string s).

(** A node whose rejected reads are turned into empty replies. *)
Definition silenced (provider : Provider) : Provider :=
  fun address slot =>
    match provider address slot with
    | Resolved data => Resolved data
    | Rejected _ => Resolved EmptyString
    end.

(** The reading of "a reader failure aborts the probe and reaches its
    caller": whenever the read of some index of the range is rejected and no
    lower index held the expected word, the probe ends with that failure. *)
Definition ProbeSurfacesReaderFailure (keccak256 : Hasher) : Prop :=
  forall (provider : Provider) (poolId expected : string) (first last i : Z)
         (slot message : string),
    first <= i <= last ->
    StorageSlotFinder.calculateStorageSlot keccak256 poolId i = Return slot ->
    provider StorageSlotFinder.POOL_MANAGER_ADDRESS slot = Rejected message ->
    (forall j slot', first <= j < i ->
       StorageSlotFinder.calculateStorageSlot keccak256 poolId j = Return slot' ->
       provider StorageSlotFinder.POOL_MANAGER_ADDRESS slot' <> Resolved expected) ->
    fst (StorageSlotFinder.probe keccak256 provider poolId expected first last [])
    = Throw (ReaderFailure message).

Module Scenario.

(** The 32 bytes of the known pool id. *)
Definition key : list byte :=
  [x2b; x12; x52; x3c; x52; xf9; x37; x64;
   x39; x96; x8e; x70; xe1; xf1; x0c; xcc;
   x10; x6a; xc8; x07; x81; xbf; x40; xb0;
   xc8; xee; xb2; xc1; x9a; x22; x38; x2e].

(** The slots of the known pool id under the base slots 0 and 6. *)
Definition slot0 : string :=
  "0xf28461fd9a8804eca3ac440d68be565e183b7f5cc313cad3adb831b03075ffad".

Definition slot6 : string :=
  "0x07a15d88d76a5ae87ddf9e02240e8145ff900e34f2115ed26c6c7e36c84dbb2b".

(** A node that holds the observed word at [slot6] and zero elsewhere. *)
Definition node : Provider :=
  fun _ slot =>
    if String.eqb slot slot6 then Resolved StorageSlotFinder.EXPECTED_RAW_DATA
    else Resolved ZeroWord.

(** The same node, except that the read of [slot0] is rejected. *)
Definition flakyNode : Provider :=
  fun address slot =>
    if String.eqb slot slot0 then Rejected "timeout" else node address slot.

(** A node that rejects every read. *)
Definition deadNode : Provider := fun _ _ => Rejected "timeout".

(** The parameters [main] passes to [calculatePoolId]. *)
Definition currency0 : string := "0x77933D339C88458450676156820D6e28bCc98BF5".
Definition currency1 : string := "0xfb4cCCd1485FD56C1E6BF93274778d2F7aBe546D".
Definition fee : Z := 8388608.
Definition tickSpacing : Z := 60.
Definition hookAddress : string := "0x70Fe3Fa2f8065898706674Acd03D7b2696161000".

(** Words whose tick field, at bits 160 to 183, holds the patterns
    0xffffff, 0x800000 and 0x7fffff; the first has its two fee fields all
    ones as well. *)
Definition allOnesFields : string :=
  "0x000000ffffffffffffffffff0000000000000000000000000000000000000000".
Definition lowestTick : string :=
  "0x0000000000000000008000000000000000000000000000000000000000000000".
Definition highestTick : string :=
  "0x0000000000000000007fffff0000000000000000000000000000000000000000".

(** The known pool id as [toUpperCase] spells it, prefix included. *)
Definition upperPoolId : string :=
  "0X2B12523C52F9376439968E70E1F10CCC106AC80781BF40B0C8EEB2C19A22382E".


(** An ICAP address and the hex spellings of the same address, lower-case
    and check-summed. *)
Definition icapAddress : string := "XE65GB6LDNXYOFTX0NSV3FUWKOWIXAMJK36".
Definition icapAsHex : string := "0x8ba1f109551bd432803012645ac136ddd64dba72".
Definition icapAsChecksum : string := "0x8ba1f109551bD432803012645Ac136ddd64DBA72".


End Scenario.

(** * Properties *)

(** ** The packed word decoder *)

Section Decoder.

Import UniswapV4PoolReader.

(** The mask [(1n << w) - 1n] is [w] ones. *)
Lemma mask_ones (w : Z) : 0 <= w -> Z.shiftl 1 w - 1 = Z.ones w.
Proof.
  intros Hw. rewrite Z.ones_equiv, Z.shiftl_mul_pow2 by assumption. lia.
Qed.

(** A field read by shift and mask is a quotient and a remainder. *)
Lemma field_div_mod (data off w : Z) :
  0 <= off -> 0 <= w ->
  Z.land (Z.shiftr data off) (Z.shiftl 1 w - 1) = (data / 2 ^ off) mod 2 ^ w.
Proof.
  intros Hoff Hw.
  now rewrite mask_ones, Z.land_ones, Z.shiftr_div_pow2.
Qed.

(** Bit [n] of a field is bit [n + off] of the word, inside the width. *)
Lemma field_testbit (data off w n : Z) :
  0 <= off -> 0 <= w -> 0 <= n ->
  Z.testbit (Z.land (Z.shiftr data off) (Z.shiftl 1 w - 1)) n
  = Z.testbit data (n + off) && (n <? w).
Proof.
  intros Hoff Hw Hn.
  rewrite mask_ones, Z.land_spec, Z.shiftr_spec by assumption.
  f_equal. destruct (Z.ltb_spec n w).
  - apply Z.ones_spec_low; lia.
  - apply Z.ones_spec_high; lia.
Qed.

Lemma field_range (data off w : Z) :
  0 <= off -> 0 <= w ->
  0 <= Z.land (Z.shiftr data off) (Z.shiftl 1 w - 1) < 2 ^ w.
Proof.
  intros Hoff Hw. rewrite field_div_mod by assumption.
  apply Z.mod_pos_bound, Z.pow_pos_nonneg; lia.
Qed.

Lemma sqrtPriceX96_of_eq (data : Z) : sqrtPriceX96_of data = data mod 2 ^ 160.
Proof.
  unfold sqrtPriceX96_of. rewrite mask_ones, Z.land_ones; lia.
Qed.

Lemma tick_of_eq (data : Z) : tick_of data = (data / 2 ^ 160) mod 2 ^ 24.
Proof. apply field_div_mod; lia. Qed.

Lemma protocolFee_of_eq (data : Z) : protocolFee_of data = (data / 2 ^ 184) mod 2 ^ 24.
Proof. apply field_div_mod; lia. Qed.

Lemma lpFee_of_eq (data : Z) : lpFee_of data = (data / 2 ^ 208) mod 2 ^ 24.
Proof. apply field_div_mod; lia. Qed.

Lemma tick_of_range (data : Z) : 0 <= tick_of data < 2 ^ 24.
Proof. apply field_range; lia. Qed.

(** On a 24-bit value the test [tick > maxTickValue] reads bit 23. *)
Lemma sign_bit_test (v : Z) :
  0 <= v < 2 ^ 24 -> (v >? maxTickValue) = Z.testbit v 23.
Proof.
  intros Hv. unfold maxTickValue. change (Z.shiftl 1 23 - 1) with (2 ^ 23 - 1).
  destruct (Z.testbit v 23) eqn:Hbit.
  - apply Z.testbit_true in Hbit; [| lia].
    apply Z.gtb_lt. 
    assert (v / 2 ^ 23 <> 0) by (intros E; rewrite E in Hbit; discriminate).
    assert (~ v < 2 ^ 23) by (intros L; apply H; apply Z.div_small; lia). lia.
  - apply Z.testbit_false in Hbit; [| lia].
    destruct (Z.gtb_spec v (2 ^ 23 - 1)) as [Hgt | Hle]; [| reflexivity].
    exfalso.
    assert (v / 2 ^ 23 = 1).
    { symmetry. apply Z.div_unique with (r := v - 2 ^ 23); lia. }
    rewrite H in Hbit. discriminate.
Qed.

Lemma signedTick_of_eq (data : Z) :
  signedTick_of data
  = if Z.testbit (tick_of data) 23 then tick_of data - 2 ^ 24 else tick_of data.
Proof.
  unfold signedTick_of. cbv zeta.
  rewrite sign_bit_test by apply tick_of_range. reflexivity.
Qed.

Lemma signedTick_of_range (data : Z) : - 2 ^ 23 <= signedTick_of data <= 2 ^ 23 - 1.
Proof.
  pose proof (tick_of_range data) as Hr.
  unfold signedTick_of, maxTickValue. cbv zeta.
  change (Z.shiftl 1 23 - 1) with (2 ^ 23 - 1). change (Z.shiftl 1 24) with (2 ^ 24).
  destruct (Z.gtb_spec (tick_of data) (2 ^ 23 - 1)); lia.
Qed.

(** Writing [w] ones at offset [off] of any word makes the field read
    [2^w - 1]. *)
Lemma field_all_ones (data off w : Z) :
  0 <= off -> 0 <= w ->
  Z.land (Z.shiftr (Z.lor data (Z.shiftl (Z.ones w) off)) off) (Z.shiftl 1 w - 1)
  = 2 ^ w - 1.
Proof.
  intros Hoff Hw.
  replace (2 ^ w - 1) with (Z.ones w) by (rewrite Z.ones_equiv; lia).
  apply Z.bits_inj'. intros n Hn.
  rewrite field_testbit, Z.lor_spec, Z.shiftl_spec by lia.
  replace (n + off - off) with n by lia.
  destruct (Z.ltb_spec n w).
  - rewrite !Z.ones_spec_low by lia. now rewrite orb_true_r.
  - rewrite !Z.ones_spec_high by lia. now rewrite andb_false_r.
Qed.

Lemma hexDigitValue_hexDigitChar (d : Z) :
  0 <= d < 16 -> hexDigitValue (hexDigitChar d) = Some d.
Proof.
  intros Hd.
  assert (d = 0 \/ d = 1 \/ d = 2 \/ d = 3 \/ d = 4 \/ d = 5 \/ d = 6 \/ d = 7 \/
          d = 8 \/ d = 9 \/ d = 10 \/ d = 11 \/ d = 12 \/ d = 13 \/ d = 14 \/ d = 15)
    as Hcases by lia.
  repeat (destruct Hcases as [-> | Hcases]; [reflexivity |]).
  subst d. reflexivity.
Qed.

Lemma byteValue_range (b : byte) : 0 <= byteValue b < 256.
Proof.
  unfold byteValue. pose proof (Byte.to_N_bounded b) as Hb. lia.
Qed.

(** Reading back the digits [hexlify] wrote gives the big-endian value. *)
Lemma parseHexDigits_hexOfBytes (bs : list byte) (acc : Z) :
  parseHexDigits acc (hexOfBytes bs)
  = Some (fold_left (fun a b => 256 * a + byteValue b) bs acc).
Proof.
  revert acc. induction bs as [| b bs IH]; intros acc; [reflexivity |].
  pose proof (byteValue_range b) as Hb.
  cbn [hexOfBytes parseHexDigits fold_left].
  rewrite !hexDigitValue_hexDigitChar.
  - rewrite IH. do 2 f_equal.
    pose proof (Z.div_mod (byteValue b) 16). lia.
  - apply Z.mod_pos_bound; lia.
  - split; [apply Z.div_pos; lia | apply Z.div_lt_upper_bound; lia].
Qed.

Lemma BigInt_hexlify (bs : list byte) :
  bs <> [] -> BigInt (hexlify bs) = Some (beValue bs).
Proof.
  destruct bs as [| b bs]; [congruence | intros _].
  unfold hexlify, BigInt. cbn [hexOfBytes]. cbn [Ascii.eqb Bool.eqb andb orb].
  exact (parseHexDigits_hexOfBytes (b :: bs) 0).
Qed.

Lemma beValue_range (bs : list byte) :
  0 <= beValue bs < 256 ^ Z.of_nat (List.length bs).
Proof.
  unfold beValue.
  enough (forall acc k, 0 <= acc < 256 ^ k -> 0 <= k ->
            0 <= fold_left (fun a b => 256 * a + byteValue b) bs acc
              < 256 ^ (k + Z.of_nat (List.length bs))) as H.
  { apply (H 0 0); [change (256 ^ 0) with 1 |]; lia. }
  induction bs as [| b bs IH]; intros acc k Hacc Hk.
  - cbn [List.length fold_left]. now rewrite Z.add_0_r.
  - cbn [fold_left]. change (List.length (b :: bs)) with (S (List.length bs)).
    replace (k + Z.of_nat (S (List.length bs))) with ((k + 1) + Z.of_nat (List.length bs)) by lia.
    apply IH; [| lia].
    pose proof (byteValue_range b).
    rewrite Z.pow_add_r by lia. change (256 ^ 1) with 256. lia.
Qed.

(** The record [decodePoolState] returns, field by field. *)
Lemma decodePoolState_fields (rawData : string) (data : Z) :
  BigInt rawData = Some data ->
  decodePoolState rawData
  = Some {| sqrtPriceX96 := BigInt_toString (sqrtPriceX96_of data);
            tick := BigInt_toString (signedTick_of data);
            protocolFee := BigInt_toString (protocolFee_of data);
            lpFee := BigInt_toString (lpFee_of data);
            rawData := rawData |}.
Proof. intros H. unfold decodePoolState. now rewrite H. Qed.

(** The decimal string of a number reads back as that number. *)
Lemma decimalOf_toString (z : Z) : decimalOf (BigInt_toString z) = Some z.
Proof.
  unfold decimalOf, BigInt_toString.
  rewrite NilZero.isi.
  - cbn [option_map]. now rewrite DecimalZ.of_to.
  - destruct z as [| p | p]; cbn [Z.to_int]; try discriminate.
    intros E. injection E as E. exact (Unsigned.to_uint_nonnil p E).
  - destruct z as [| p | p]; cbn [Z.to_int]; try discriminate.
    intros E. injection E as E. exact (Unsigned.to_uint_nonnil p E).
Qed.

(** Every 32-byte word, as the node returns it, is decoded: [BigInt] reads
    the big-endian value of the bytes and the four fields are those of that
    value. *)
Theorem decodePoolState_total (word : list byte) :
  List.length word = 32%nat ->
  0 <= beValue word < 2 ^ 256
  /\ BigInt (hexlify word) = Some (beValue word)
  /\ decodePoolState (hexlify word)
     = Some {| sqrtPriceX96 := BigInt_toString (beValue word mod 2 ^ 160);
               tick := BigInt_toString (signedTick_of (beValue word));
               protocolFee := BigInt_toString ((beValue word / 2 ^ 184) mod 2 ^ 24);
               lpFee := BigInt_toString ((beValue word / 2 ^ 208) mod 2 ^ 24);
               rawData := hexlify word |}
  /\ signedTick_of (beValue word)
     = (if (beValue word / 2 ^ 160) mod 2 ^ 24 <? 2 ^ 23
        then (beValue word / 2 ^ 160) mod 2 ^ 24
        else (beValue word / 2 ^ 160) mod 2 ^ 24 - 2 ^ 24).
Proof.
  intros Hlen.
  assert (BigInt (hexlify word) = Some (beValue word)) as Hbig.
  { apply BigInt_hexlify. intros ->. discriminate. }
  split; [| split; [exact Hbig | split]].
  - pose proof (beValue_range word) as Hr. rewrite Hlen in Hr.
    change (256 ^ Z.of_nat 32) with (2 ^ 256) in Hr. exact Hr.
  - rewrite (decodePoolState_fields _ _ Hbig).
    now rewrite sqrtPriceX96_of_eq, protocolFee_of_eq, lpFee_of_eq.
  - unfold signedTick_of, maxTickValue. cbv zeta. rewrite tick_of_eq.
    change (Z.shiftl 1 23 - 1) with (2 ^ 23 - 1). change (Z.shiftl 1 24) with (2 ^ 24).
    destruct (Z.gtb_spec ((beValue word / 2 ^ 160) mod 2 ^ 24) (2 ^ 23 - 1));
      destruct (Z.ltb_spec ((beValue word / 2 ^ 160) mod 2 ^ 24) (2 ^ 23));
      try reflexivity; lia.
Qed.

(** C2: the 24-bit signed field.  For every word [decodePoolState] reads,
    the field at offset 160 is extracted as the unsigned value
    [v = (data / 2^160) mod 2^24], and the tick of the returned object is
    the decimal string of [v - 2^24] when bit 23 of [v] is set and of [v]
    otherwise; it lies in [-2^23, 2^23 - 1].  With the 24 bits all ones the
    returned tick is -1, while the unsigned reading of the same bits is
    16777215 and the two unsigned fees of all ones are returned as
    16777215; the patterns 0x800000 and 0x7fffff are returned as the two
    ends of the range. *)
Theorem signed_field_twos_complement (rawData : string) (data : Z) :
  BigInt rawData = Some data ->
  let v := tick_of data in
  let signed := if Z.testbit v 23 then v - 2 ^ 24 else v in
  v = (data / 2 ^ 160) mod 2 ^ 24
  /\ (exists state,
         decodePoolState rawData = Some state
         /\ tick state = BigInt_toString signed
         /\ decimalOf (tick state) = Some signed)
  /\ signedTick_of data = signed
  /\ - 2 ^ 23 <= signed <= 2 ^ 23 - 1
  /\ tick_of (Z.lor data (Z.shiftl 0xFFFFFF 160)) = 16777215
  /\ signedTick_of (Z.lor data (Z.shiftl 0xFFFFFF 160)) = -1
  /\ protocolFee_of (Z.lor data (Z.shiftl 0xFFFFFF 184)) = 16777215
  /\ lpFee_of (Z.lor data (Z.shiftl 0xFFFFFF 208)) = 16777215
  /\ signedTick_of (Z.shiftl 0x800000 160) = - 2 ^ 23
  /\ signedTick_of (Z.shiftl 0x7FFFFF 160) = 2 ^ 23 - 1
  /\ decodePoolState Scenario.allOnesFields
     = Some {| sqrtPriceX96 := "0"; tick := "-1"; protocolFee := "16777215";
               lpFee := "16777215"; rawData := Scenario.allOnesFields |}
  /\ option_map tick (decodePoolState Scenario.lowestTick) = Some "-8388608"%string
  /\ option_map tick (decodePoolState Scenario.highestTick) = Some "8388607"%string.
Proof.
  intros Hraw. cbv zeta.
  assert (tick_of (Z.lor data (Z.shiftl 0xFFFFFF 160)) = 16777215) as Hones.
  { exact (field_all_ones data 160 24 ltac:(lia) ltac:(lia)). }
  pose proof (signedTick_of_eq data) as Hsigned.
  pose proof (signedTick_of_range data) as Hrange. rewrite Hsigned in Hrange.
  split; [apply tick_of_eq |].
  split.
  { eexists. split; [apply (decodePoolState_fields _ _ Hraw) |].
    cbn [tick]. rewrite Hsigned. split; [reflexivity | apply decimalOf_toString]. }
  split; [exact Hsigned |].
  split; [exact Hrange |].
  split; [exact Hones |].
  split; [unfold signedTick_of; cbv zeta; rewrite Hones; reflexivity |].
  split; [exact (field_all_ones data 184 24 ltac:(lia) ltac:(lia)) |].
  split; [exact (field_all_ones data 208 24 ltac:(lia) ltac:(lia)) |].
  split; [reflexivity |]. split; [reflexivity |].
  split; [vm_compute; reflexivity |].
  split; vm_compute; reflexivity.
Qed.

(** C9: range invariants of the decoded fields.  For every word
    [decodePoolState] reads, the four numbers of the returned object,
    read back from their decimal strings, are: sqrtPriceX96, the low 160
    bits, in [0, 2^160); the tick in [-2^23, 2^23 - 1]; protocolFee, bits
    184 to 207, and lpFee, bits 208 to 231, each in [0, 2^24).  The two fees
    are masked values and never negative, the tick alone goes through the
    sign conversion. *)
Theorem decoded_fields_in_range (rawData : string) (data : Z) :
  BigInt rawData = Some data ->
  (exists state price tickValue fee0 fee1,
      decodePoolState rawData = Some state
      /\ decimalOf (sqrtPriceX96 state) = Some price
      /\ decimalOf (tick state) = Some tickValue
      /\ decimalOf (protocolFee state) = Some fee0
      /\ decimalOf (lpFee state) = Some fee1
      /\ sqrtPriceX96 state = BigInt_toString price
      /\ tick state = BigInt_toString tickValue
      /\ protocolFee state = BigInt_toString fee0
      /\ lpFee state = BigInt_toString fee1
      /\ price = data mod 2 ^ 160
      /\ tickValue = signedTick_of data
      /\ fee0 = (data / 2 ^ 184) mod 2 ^ 24
      /\ fee1 = (data / 2 ^ 208) mod 2 ^ 24
      /\ 0 <= price < 2 ^ 160
      /\ - 2 ^ 23 <= tickValue <= 2 ^ 23 - 1
      /\ 0 <= fee0 < 2 ^ 24
      /\ 0 <= fee1 < 2 ^ 24)
  /\ 0 <= sqrtPriceX96_of data < 2 ^ 160
  /\ - 2 ^ 23 <= signedTick_of data <= 2 ^ 23 - 1
  /\ 0 <= protocolFee_of data < 2 ^ 24
  /\ 0 <= lpFee_of data < 2 ^ 24
  /\ protocolFee_of data = (data / 2 ^ 184) mod 2 ^ 24
  /\ lpFee_of data = (data / 2 ^ 208) mod 2 ^ 24.
Proof.
  intros Hraw.
  assert (0 <= sqrtPriceX96_of data < 2 ^ 160) as Hp
    by (rewrite sqrtPriceX96_of_eq; apply Z.mod_pos_bound; lia).
  pose proof (signedTick_of_range data) as Ht.
  assert (0 <= protocolFee_of data < 2 ^ 24) as Hf by (apply field_range; lia).
  assert (0 <= lpFee_of data < 2 ^ 24) as Hl by (apply field_range; lia).
  split.
  { exists {| sqrtPriceX96 := BigInt_toString (sqrtPriceX96_of data);
              tick := BigInt_toString (signedTick_of data);
              protocolFee := BigInt_toString (protocolFee_of data);
              lpFee := BigInt_toString (lpFee_of data);
              rawData := rawData |},
      (sqrtPriceX96_of data), (signedTick_of data), (protocolFee_of data),
      (lpFee_of data).
    cbn [sqrtPriceX96 tick protocolFee lpFee].
    split; [apply (decodePoolState_fields _ _ Hraw) |].
    do 4 (split; [apply decimalOf_toString |]).
    do 4 (split; [reflexivity |]).
    split; [apply sqrtPriceX96_of_eq |]. split; [reflexivity |].
    split; [apply protocolFee_of_eq |]. split; [apply lpFee_of_eq |].
    split; [exact Hp |]. split; [exact Ht |]. split; [exact Hf | exact Hl]. }
  split; [exact Hp |]. split; [exact Ht |]. split; [exact Hf |].
  split; [exact Hl |]. split; [apply protocolFee_of_eq | apply lpFee_of_eq].
Qed.

(** C10: the top 24 bits are ignored.  Two words that agree on bits 0 to
    231 decode to the same sqrtPriceX96, tick, protocolFee and lpFee,
    as numbers and as the strings of the returned object. *)
Theorem decode_ignores_top_bits (raw1 raw2 : string) (data1 data2 : Z) :
  BigInt raw1 = Some data1 ->
  BigInt raw2 = Some data2 ->
  (forall i, 0 <= i < 232 -> Z.testbit data1 i = Z.testbit data2 i) ->
  sqrtPriceX96_of data1 = sqrtPriceX96_of data2
  /\ signedTick_of data1 = signedTick_of data2
  /\ protocolFee_of data1 = protocolFee_of data2
  /\ lpFee_of data1 = lpFee_of data2
  /\ exists s1 s2,
       decodePoolState raw1 = Some s1 /\ decodePoolState raw2 = Some s2
       /\ sqrtPriceX96 s1 = sqrtPriceX96 s2 /\ tick s1 = tick s2
       /\ protocolFee s1 = protocolFee s2 /\ lpFee s1 = lpFee s2.
Proof.
  intros H1 H2 Hbits.
  assert (forall off w, 0 <= off -> 0 <= w -> off + w <= 232 ->
            Z.land (Z.shiftr data1 off) (Z.shiftl 1 w - 1)
            = Z.land (Z.shiftr data2 off) (Z.shiftl 1 w - 1)) as Hfield.
  { intros off w Hoff Hw Hsum. apply Z.bits_inj'. intros n Hn.
    rewrite !field_testbit by assumption.
    destruct (Z.ltb_spec n w); [| now rewrite !andb_false_r].
    rewrite Hbits by lia. reflexivity. }
  assert (sqrtPriceX96_of data1 = sqrtPriceX96_of data2) as Hp.
  { unfold sqrtPriceX96_of. rewrite <- (Z.shiftr_0_r data1), <- (Z.shiftr_0_r data2).
    apply Hfield; lia. }
  assert (tick_of data1 = tick_of data2) as Ht by (apply Hfield; lia).
  assert (signedTick_of data1 = signedTick_of data2) as Hs
    by (unfold signedTick_of; now rewrite Ht).
  assert (protocolFee_of data1 = protocolFee_of data2) as Hf by (apply Hfield; lia).
  assert (lpFee_of data1 = lpFee_of data2) as Hl by (apply Hfield; lia).
  repeat split; try assumption.
  rewrite (decodePoolState_fields raw1 data1 H1), (decodePoolState_fields raw2 data2 H2).
  do 2 eexists. split; [reflexivity |]. split; [reflexivity |].
  cbn [sqrtPriceX96 tick protocolFee lpFee].
  now rewrite Hp, Hs, Hf, Hl.
Qed.

(** C7: the observed word.  With the 160-bit unsigned field at offset 0 and
    the 24-bit signed field at offset 160, the word
    0x000000004e20000000fd435c000000000000000000085a6afa601db20218ff54
    decodes to 0x085a6afa601db20218ff54 and to -179364, the sign extension
    of 0xfd435c. *)
Theorem decode_observed_word :
  exists data,
    BigInt "0x000000004e20000000fd435c000000000000000000085a6afa601db20218ff54"
    = Some data
    /\ sqrtPriceX96_of data = 0x085a6afa601db20218ff54
    /\ sqrtPriceX96_of data = data mod 2 ^ 160
    /\ tick_of data = 0xfd435c
    /\ signedTick_of data = -179364
    /\ signedTick_of data = 0xfd435c - 2 ^ 24
    /\ decodePoolState
         "0x000000004e20000000fd435c000000000000000000085a6afa601db20218ff54"
       = Some {| sqrtPriceX96 := "10098392936699872302137172";
                 tick := "-179364";
                 protocolFee := "0";
                 lpFee := "20000";
                 rawData :=
                   "0x000000004e20000000fd435c000000000000000000085a6afa601db20218ff54" |}.
Proof.
  eexists. split; [vm_compute; reflexivity |].
  repeat split; vm_compute; reflexivity.
Qed.

End Decoder.



(** ** Bytes and big-endian words *)

Section Bytes.

Lemma byteValue_byteOfZ (z : Z) : byteValue (byteOfZ z) = z mod 256.
Proof.
  pose proof (Z.mod_pos_bound z 256 ltac:(lia)) as Hm.
  unfold byteValue, byteOfZ.
  destruct (Byte.of_N (Z.to_N (z mod 256))) as [b |] eqn:E.
  - apply Byte.to_of_N in E. rewrite E. apply Z2N.id. lia.
  - apply Byte.of_N_None_iff in E. lia.
Qed.

Lemma byteOfZ_byteValue (b : byte) : byteOfZ (byteValue b) = b.
Proof.
  pose proof (byteValue_range b) as Hb.
  unfold byteOfZ. rewrite Z.mod_small by assumption.
  unfold byteValue. rewrite N2Z.id, Byte.of_to_N. reflexivity.
Qed.

Lemma length_toBeBytes (n : nat) (v : Z) : List.length (toBeBytes n v) = n.
Proof.
  revert v. induction n as [| n IH]; intros v; [reflexivity |].
  cbn [toBeBytes]. rewrite length_app, IH. cbn. lia.
Qed.

Lemma beValue_snoc (bs : list byte) (b : byte) :
  beValue (bs ++ [b]) = 256 * beValue bs + byteValue b.
Proof. unfold beValue. now rewrite fold_left_app. Qed.

(** [toBeBytes n v] is the big-endian form of [v] on [n] bytes. *)
Lemma beValue_toBeBytes (n : nat) (v : Z) :
  beValue (toBeBytes n v) = v mod 256 ^ Z.of_nat n.
Proof.
  revert v. induction n as [| n IH]; intros v.
  - cbn. now rewrite Z.mod_1_r.
  - cbn [toBeBytes]. rewrite beValue_snoc, IH, byteValue_byteOfZ.
    rewrite Nat2Z.inj_succ, Z.pow_succ_r by lia.
    rewrite (Z.rem_mul_r v 256 (256 ^ Z.of_nat n)) by lia. lia.
Qed.

(** An unsigned value that fits in 32 bytes is exactly what its word holds:
    the word is the value left-padded with zero bytes. *)
Lemma beValue_word (v : Z) : 0 <= v < 2 ^ 256 -> beValue (toBeBytes 32 v) = v.
Proof.
  intros Hv. rewrite beValue_toBeBytes.
  change (256 ^ Z.of_nat 32) with (2 ^ 256). now apply Z.mod_small.
Qed.

Lemma bytesOfHex_hexOfBytes (bs : list byte) : bytesOfHex (hexOfBytes bs) = Some bs.
Proof.
  induction bs as [| b bs IH]; [reflexivity |].
  pose proof (byteValue_range b) as Hb.
  cbn [hexOfBytes bytesOfHex].
  rewrite !hexDigitValue_hexDigitChar, IH.
  - do 2 f_equal. rewrite <- (byteOfZ_byteValue b) at 3. f_equal.
    pose proof (Z.div_mod (byteValue b) 16). lia.
  - apply Z.mod_pos_bound; lia.
  - split; [apply Z.div_pos; lia | apply Z.div_lt_upper_bound; lia].
Qed.

(** Every byte sequence is read back from its hex string. *)
Lemma getBytes_hexlify (bs : list byte) : getBytes (hexlify bs) = Some bs.
Proof. exact (bytesOfHex_hexOfBytes bs). Qed.

End Bytes.

(** ** The slot of a mapping entry *)

Section SlotDeriver.

Variable keccak256 : Hasher.

(** The ABI encoding of a [(bytes32, uint256)] pair is the key followed by
    the 32-byte word of the number. *)
Lemma encode_bytes32_uint256 (poolId : string) (key : list byte) (n : Z) :
  getBytes poolId = Some key -> List.length key = 32%nat -> 0 <= n < 2 ^ 256 ->
  AbiCoder_encode [TBytes 32; TUint 256] [JsString poolId; JsNumber n]
  = Return (key ++ toBeBytes 32 n).
Proof.
  intros Hkey Hlen Hn.
  cbn [AbiCoder_encode encodeValue bindOutcome]. rewrite Hkey, Hlen.
  cbn [Nat.sub repeat].
  replace (validWidth 256 && (0 <=? n) && (n <? 2 ^ 256)) with true.
  - cbn. now rewrite !app_nil_r.
  - symmetry. apply andb_true_iff. split; [apply andb_true_iff; split |].
    + reflexivity.
    + apply Z.leb_le; lia.
    + apply Z.ltb_lt; lia.
Qed.

(** The padded and the packed encoding of a [(bytes32, uint256)] pair
    coincide on every input, failures included. *)
Lemma encode_packed_bytes32_uint256 (poolId : string) (n : Z) :
  AbiCoder_encode [TBytes 32; TUint 256] [JsString poolId; JsNumber n]
  = solidityPacked [TBytes 32; TUint 256] [JsString poolId; JsNumber n].
Proof.
  cbn [AbiCoder_encode solidityPacked encodeValue packValue bindOutcome].
  destruct (getBytes poolId) as [bs |]; [| reflexivity].
  destruct (Z.eqb_spec (Z.of_nat (List.length bs)) 32) as [Hlen | Hlen].
  - replace (List.length bs) with 32%nat by lia.
    cbn [Z.leb Z.compare Pos.compare Pos.compare_cont andb Nat.sub repeat bindOutcome].
    rewrite app_nil_r.
    change (Z.to_nat (256 / 8)) with 32%nat.
    destruct (validWidth 256 && (0 <=? n) && (n <? 2 ^ 256)); reflexivity.
  - rewrite andb_false_r. reflexivity.
Qed.

(** C1: the derived slot.  For every 32-byte key (written as a hex string)
    and every base slot index that a 256-bit unsigned integer holds,
    [calculateStorageSlot] returns the Keccak-256 digest of the 64 bytes
    made of the key followed by the index as a big-endian word left-padded
    with zeros; [calculatePoolStorageSlot] is the same at index 6. *)
Theorem derived_slot_hashes_key_then_index
    (poolId : string) (key : list byte) (slotNumber : Z) :
  getBytes poolId = Some key ->
  List.length key = 32%nat ->
  0 <= slotNumber < 2 ^ 256 ->
  StorageSlotFinder.calculateStorageSlot keccak256 poolId slotNumber
  = Return (hexlify (keccak256 (key ++ toBeBytes 32 slotNumber)))
  /\ UniswapV4PoolReader.calculatePoolStorageSlot keccak256 poolId
     = Return (hexlify (keccak256 (key ++ toBeBytes 32 6)))
  /\ List.length (key ++ toBeBytes 32 slotNumber) = 64%nat
  /\ List.length (toBeBytes 32 slotNumber) = 32%nat
  /\ beValue (toBeBytes 32 slotNumber) = slotNumber.
Proof.
  intros Hkey Hlen Hn.
  split; [| split; [| split; [| split]]].
  - unfold StorageSlotFinder.calculateStorageSlot.
    now rewrite (encode_bytes32_uint256 poolId key slotNumber).
  - unfold UniswapV4PoolReader.calculatePoolStorageSlot, UniswapV4PoolReader.POOL_STATE_SLOT.
    rewrite (encode_bytes32_uint256 poolId key 6) by (assumption || lia).
    reflexivity.
  - rewrite length_app, length_toBeBytes, Hlen. reflexivity.
  - apply length_toBeBytes.
  - now apply beValue_word.
Qed.

(** C8: the two ways of computing one slot.  For a [bytes32] key and a
    [uint256] index the hash of the padded ABI encoding and the hash of the
    tightly packed encoding are the same call result; for the key and the
    index 6 of [debug.js] both are the digest of the same 64 bytes, which
    is also what [calculatePoolStorageSlot] returns.  This holds for any
    digest function; with Keccak-256 both paths give one 32-byte slot. *)
Theorem padded_and_packed_slot_agree :
  (forall (poolId : string) (n : Z),
      (do e <- AbiCoder_encode [TBytes 32; TUint 256] [JsString poolId; JsNumber n];
       Return (ethers_keccak256 keccak256 e))
      = (do e <- solidityPacked [TBytes 32; TUint 256] [JsString poolId; JsNumber n];
         Return (ethers_keccak256 keccak256 e)))
  /\ Debug.calculatedSlot keccak256 = Debug.manualHash keccak256
  /\ (exists key,
        getBytes Debug.poolId = Some key
        /\ List.length (key ++ toBeBytes 32 6) = 64%nat
        /\ Debug.encodedSlot = Return (key ++ toBeBytes 32 6)
        /\ Debug.manualEncoded = Return (key ++ toBeBytes 32 6)
        /\ Debug.calculatedSlot keccak256
           = Return (hexlify (keccak256 (key ++ toBeBytes 32 6)))
        /\ Debug.manualHash keccak256
           = Return (hexlify (keccak256 (key ++ toBeBytes 32 6)))
        /\ UniswapV4PoolReader.calculatePoolStorageSlot keccak256 Debug.poolId
           = Debug.calculatedSlot keccak256)
  /\ Debug.calculatedSlot Keccak.keccak256 = Return Scenario.slot6
  /\ Debug.manualHash Keccak.keccak256 = Return Scenario.slot6
  /\ option_map (@List.length byte) (getBytes Scenario.slot6) = Some 32%nat.
Proof.
  split; [| split; [| split; [| split; [| split]]]];
    [| | | vm_compute; reflexivity | vm_compute; reflexivity | vm_compute; reflexivity].
  - intros poolId n. now rewrite encode_packed_bytes32_uint256.
  - unfold Debug.calculatedSlot, Debug.manualHash, Debug.encodedSlot, Debug.manualEncoded.
    now rewrite encode_packed_bytes32_uint256.
  - destruct (getBytes Debug.poolId) as [key |] eqn:Hkey; [| discriminate Hkey].
    assert (List.length key = 32%nat) as Hlen.
    { vm_compute in Hkey. injection Hkey as <-. reflexivity. }
    assert (Debug.encodedSlot = Return (key ++ toBeBytes 32 6)) as Henc.
    { apply encode_bytes32_uint256; [assumption | assumption | lia]. }
    exists key.
    split; [reflexivity |].
    split; [rewrite length_app, length_toBeBytes, Hlen; reflexivity |].
    split; [exact Henc |].
    assert (Debug.manualEncoded = Return (key ++ toBeBytes 32 6)) as Hpack.
    { unfold Debug.manualEncoded, Debug.POOL_STATE_SLOT.
      rewrite <- encode_packed_bytes32_uint256. exact Henc. }
    split; [exact Hpack |].
    split; [unfold Debug.calculatedSlot; now rewrite Henc |].
    split; [unfold Debug.manualHash; now rewrite Hpack |].
    reflexivity.
Qed.

End SlotDeriver.

(** ** The pool identifier *)

Section IdentifierComputer.

Import UniswapV4PoolReader.

Variable keccak256 : Hasher.

Ltac each_char c := destruct c as [[] [] [] [] [] [] [] []].

Lemma hexDigitValue_toLowerCaseChar (c : ascii) :
  hexDigitValue (toLowerCaseChar c) = hexDigitValue c.
Proof. each_char c; reflexivity. Qed.

(** The code unit of a lower-cased hex digit grows with the digit. *)
Lemma hexDigit_code (c : ascii) (d : Z) :
  hexDigitValue c = Some d ->
  0 <= d < 16
  /\ charCode (toLowerCaseChar c) = (if d <? 10 then 48 + d else 87 + d).
Proof.
  intros H. each_char c; vm_compute in H; try discriminate H;
    injection H as <-; (split; [lia | reflexivity]).
Qed.

Lemma compare_hexDigits (c1 c2 : ascii) (d1 d2 : Z) :
  hexDigitValue c1 = Some d1 -> hexDigitValue c2 = Some d2 ->
  Ascii.compare (toLowerCaseChar c1) (toLowerCaseChar c2) = (d1 ?= d2).
Proof.
  intros H1 H2.
  destruct (hexDigit_code c1 d1 H1) as [Hd1 Hc1].
  destruct (hexDigit_code c2 d2 H2) as [Hd2 Hc2].
  unfold Ascii.compare. rewrite <- N2Z.inj_compare.
  fold (charCode (toLowerCaseChar c1)). fold (charCode (toLowerCaseChar c2)).
  rewrite Hc1, Hc2.
  destruct (Z.ltb_spec d1 10), (Z.ltb_spec d2 10), (Z.compare_spec d1 d2);
    try (apply Z.compare_eq_iff; lia);
    try (apply Z.compare_lt_iff; lia);
    try (apply Z.compare_gt_iff; lia).
Qed.

Lemma toLowerCase_idempotent (s : string) : toLowerCase (toLowerCase s) = toLowerCase s.
Proof.
  induction s as [| c s IH]; [reflexivity |].
  cbn [toLowerCase]. rewrite IH. f_equal. each_char c; reflexivity.
Qed.

Lemma length_toLowerCase (s : string) :
  String.length (toLowerCase s) = String.length s.
Proof. induction s as [| c s IH]; cbn; congruence. Qed.

Lemma parseHexDigits_toLowerCase (s : string) (acc : Z) :
  parseHexDigits acc (toLowerCase s) = parseHexDigits acc s.
Proof.
  revert acc. induction s as [| c s IH]; intros acc; [reflexivity |].
  cbn [toLowerCase parseHexDigits]. rewrite hexDigitValue_toLowerCaseChar.
  destruct (hexDigitValue c); [apply IH | reflexivity].
Qed.

(** The digits read after [acc] add to [acc] shifted by their number. *)
Lemma parseHexDigits_acc (s : string) (acc v : Z) :
  parseHexDigits acc s = Some v ->
  exists w, parseHexDigits 0 s = Some w
            /\ v = acc * 16 ^ Z.of_nat (String.length s) + w
            /\ 0 <= w < 16 ^ Z.of_nat (String.length s).
Proof.
  revert acc v. induction s as [| c s IH]; intros acc v H.
  - cbn in H. injection H as <-. exists 0. cbn. repeat split; lia.
  - cbn [parseHexDigits] in *.
    destruct (hexDigitValue c) as [d |] eqn:Hd; [| discriminate H].
    destruct (hexDigit_code c d Hd) as [Hrange _].
    destruct (IH _ _ H) as (w & Hw & Hv & Hwr).
    destruct (parseHexDigits (16 * 0 + d) s) as [w' |] eqn:Hw'.
    + destruct (IH _ _ Hw') as (w0 & Hw0 & Hv0 & Hw0r).
      assert (w0 = w) by congruence. subst w0.
      exists w'. split; [reflexivity |].
      change (String.length (String c s)) with (S (String.length s)).
      rewrite Nat2Z.inj_succ, Z.pow_succ_r by lia.
      assert (0 < 16 ^ Z.of_nat (String.length s)) by (apply Z.pow_pos_nonneg; lia).
      split; [nia | nia].
    + exfalso. 
      assert (forall a b, parseHexDigits a s = None -> parseHexDigits b s = None) as Hnone.
      { clear. induction s as [| c s IH]; intros a b Hn; [discriminate Hn |].
        cbn [parseHexDigits] in *. destruct (hexDigitValue c); [| reflexivity].
        eapply IH; eassumption. }
      rewrite (Hnone _ (16 * acc + d) Hw') in H. discriminate H.
Qed.

(** On two runs of hex digits of one length, the order of the lower-cased
    texts is the order of the numbers. *)
Lemma compare_hex_strings (s1 s2 : string) (w1 w2 : Z) :
  String.length s1 = String.length s2 ->
  parseHexDigits 0 s1 = Some w1 -> parseHexDigits 0 s2 = Some w2 ->
  String.compare (toLowerCase s1) (toLowerCase s2) = (w1 ?= w2).
Proof.
  revert s2 w1 w2. induction s1 as [| c1 s1 IH]; intros [| c2 s2] w1 w2 Hlen H1 H2;
    try discriminate Hlen.
  - cbn in H1, H2. injection H1 as <-. injection H2 as <-. reflexivity.
  - injection Hlen as Hlen.
    cbn [parseHexDigits] in H1, H2.
    destruct (hexDigitValue c1) as [d1 |] eqn:Hd1; [| discriminate H1].
    destruct (hexDigitValue c2) as [d2 |] eqn:Hd2; [| discriminate H2].
    destruct (hexDigit_code c1 d1 Hd1) as [Hr1 _].
    destruct (hexDigit_code c2 d2 Hd2) as [Hr2 _].
    destruct (parseHexDigits_acc _ _ _ H1) as (v1 & Hv1 & E1 & B1).
    destruct (parseHexDigits_acc _ _ _ H2) as (v2 & Hv2 & E2 & B2).
    cbn [toLowerCase String.compare].
    rewrite (compare_hexDigits c1 c2 d1 d2 Hd1 Hd2), (IH s2 v1 v2 Hlen Hv1 Hv2).
    rewrite Hlen in E1, B1.
    set (p := 16 ^ Z.of_nat (String.length s2)) in *.
    destruct (Z.compare_spec d1 d2) as [Hd | Hd | Hd].
    + subst d2. destruct (Z.compare_spec v1 v2); symmetry;
        [apply Z.compare_eq_iff | apply Z.compare_lt_iff | apply Z.compare_gt_iff]; lia.
    + symmetry. apply Z.compare_lt_iff. nia.
    + symmetry. apply Z.compare_gt_iff. nia.
Qed.

Lemma stripHexPrefix_inv (s body : string) :
  stripHexPrefix s = Some body -> s = String "0" (String "x" body).
Proof.
  destruct s as [| c0 [| c1 r]]; try discriminate.
  unfold stripHexPrefix.
  destruct (Ascii.eqb_spec c0 "0"), (Ascii.eqb_spec c1 "x"); cbn; try discriminate.
  intros H. injection H as <-. now subst.
Qed.

Lemma parseAddress_hex (s : string) :
  isHexAddress s = true ->
  parseAddress s
  = (if hasMixedCase (addressBody s)
        && negb (String.eqb (checksumBody (toLowerCase (addressBody s))) (addressBody s))
     then None
     else parseHexDigits 0 (addressBody s)).
Proof. intros H. unfold parseAddress. now rewrite H. Qed.

(** An address written as hex digits: its digits and its range. *)
Lemma parseAddress_inv (s : string) (a : Z) :
  isHexAddress s = true ->
  parseAddress s = Some a ->
  exists body, addressBody s = body
               /\ String.length body = 40%nat
               /\ parseHexDigits 0 body = Some a
               /\ 0 <= a < 2 ^ 160.
Proof.
  intros Hhex H. rewrite (parseAddress_hex s Hhex) in H.
  unfold isHexAddress in Hhex. apply andb_true_iff in Hhex.
  destruct Hhex as [Hlen _]. apply Nat.eqb_eq in Hlen.
  destruct (hasMixedCase (addressBody s)
            && negb (String.eqb (checksumBody (toLowerCase (addressBody s)))
                       (addressBody s))); [discriminate H |].
  exists (addressBody s). split; [reflexivity |]. split; [exact Hlen |].
  split; [exact H |].
  destruct (parseHexDigits_acc _ _ _ H) as (w & Hw & Hv & Hr).
  rewrite Hlen in Hv, Hr. change (16 ^ Z.of_nat 40) with (2 ^ 160) in Hr. lia.
Qed.

Lemma allHexDigits_toLowerCase (s : string) :
  allHexDigits (toLowerCase s) = allHexDigits s.
Proof.
  induction s as [| c s IH]; [reflexivity |].
  cbn [toLowerCase allHexDigits]. rewrite hexDigitValue_toLowerCaseChar, IH. reflexivity.
Qed.

Lemma hasUpperHexLetter_toLowerCase (s : string) :
  hasUpperHexLetter (toLowerCase s) = false.
Proof.
  induction s as [| c s IH]; [reflexivity |].
  cbn [toLowerCase hasUpperHexLetter]. rewrite IH, orb_false_r.
  each_char c; reflexivity.
Qed.

(** A run of hex digits has no prefix [0x], lower-cased or not. *)
Lemma allHexDigits_no_prefix (s : string) :
  allHexDigits s = true -> stripHexPrefix (toLowerCase s) = None.
Proof.
  destruct s as [| c0 [| c1 r]]; try reflexivity.
  cbn [allHexDigits toLowerCase stripHexPrefix].
  destruct (hexDigitValue c0); [| discriminate].
  destruct (hexDigitValue c1) eqn:H1; [| discriminate]. intros _.
  rewrite <- hexDigitValue_toLowerCaseChar in H1.
  destruct (Ascii.eqb_spec (toLowerCaseChar c1) "x") as [E | _];
    [rewrite E in H1; discriminate H1 | now rewrite andb_false_r].
Qed.

Lemma addressBody_toLowerCase (s : string) :
  allHexDigits (addressBody s) = true ->
  addressBody (toLowerCase s) = toLowerCase (addressBody s).
Proof.
  unfold addressBody. destruct (stripHexPrefix s) as [body |] eqn:Hs.
  - apply stripHexPrefix_inv in Hs. subst s. reflexivity.
  - intros Hall. now rewrite (allHexDigits_no_prefix s Hall).
Qed.

Lemma isHexAddress_toLowerCase (s : string) :
  isHexAddress s = true -> isHexAddress (toLowerCase s) = true.
Proof.
  unfold isHexAddress. intros H. apply andb_true_iff in H. destruct H as [Hlen Hall].
  now rewrite (addressBody_toLowerCase s Hall), length_toLowerCase, Hlen,
    allHexDigits_toLowerCase, Hall.
Qed.

Lemma parseAddress_toLowerCase (s : string) (a : Z) :
  isHexAddress s = true ->
  parseAddress s = Some a -> parseAddress (toLowerCase s) = Some a.
Proof.
  intros Hhex H.
  destruct (parseAddress_inv s a Hhex H) as (body & Hbody & Hlen & Hp & _). subst body.
  rewrite (parseAddress_hex _ (isHexAddress_toLowerCase s Hhex)).
  unfold isHexAddress in Hhex. apply andb_true_iff in Hhex. destruct Hhex as [_ Hall].
  rewrite (addressBody_toLowerCase s Hall).
  unfold hasMixedCase. rewrite hasUpperHexLetter_toLowerCase.
  cbn [andb]. now rewrite parseHexDigits_toLowerCase.
Qed.

Lemma hasHexPrefix_length (s : string) :
  String.length s
  = ((if hasHexPrefix s then 2 else 0) + String.length (addressBody s))%nat.
Proof.
  unfold hasHexPrefix, addressBody. destruct (stripHexPrefix s) as [body |] eqn:Hs.
  - apply stripHexPrefix_inv in Hs. subst s. reflexivity.
  - reflexivity.
Qed.

(** A hex address has 40 or 42 characters. *)
Lemma isHexAddress_length (s : string) :
  isHexAddress s = true -> String.length s = 40%nat \/ String.length s = 42%nat.
Proof.
  unfold isHexAddress. intros H. apply andb_true_iff in H. destruct H as [Hlen _].
  apply Nat.eqb_eq in Hlen. rewrite (hasHexPrefix_length s), Hlen.
  destruct (hasHexPrefix s); [now right | now left].
Qed.

Lemma base36DigitValue_toLowerCaseChar (c : ascii) :
  base36DigitValue (toLowerCaseChar c) = base36DigitValue c.
Proof. each_char c; reflexivity. Qed.

Lemma fromBase36_toLowerCase (s : string) (acc : Z) :
  fromBase36 acc (toLowerCase s) = fromBase36 acc s.
Proof.
  revert acc. induction s as [| c s IH]; intros acc; [reflexivity |].
  cbn [toLowerCase fromBase36]. rewrite base36DigitValue_toLowerCaseChar.
  destruct (base36DigitValue c); [apply IH | reflexivity].
Qed.

Lemma base36DigitValue_range (c : ascii) (d : Z) :
  base36DigitValue c = Some d -> 0 <= d < 36.
Proof.
  unfold base36DigitValue. cbv zeta.
  destruct ((48 <=? charCode c) && (charCode c <=? 57)) eqn:E1;
    [| destruct ((97 <=? charCode c) && (charCode c <=? 122)) eqn:E2;
       [| destruct ((65 <=? charCode c) && (charCode c <=? 90)) eqn:E3]];
    intros H; try discriminate H; injection H as <-;
    match goal with E : _ && _ = true |- _ =>
      apply andb_true_iff in E; destruct E as [Ea Eb];
      apply Z.leb_le in Ea; apply Z.leb_le in Eb end; lia.
Qed.

(** The base-36 digits read after [acc] stay below the next multiple. *)
Lemma fromBase36_bound (s : string) (acc v : Z) :
  fromBase36 acc s = Some v -> 0 <= acc ->
  0 <= v < (acc + 1) * 36 ^ Z.of_nat (String.length s).
Proof.
  revert acc. induction s as [| c s IH]; intros acc H Hacc.
  - injection H as <-. cbn [String.length Z.of_nat]. lia.
  - cbn [fromBase36] in H. destruct (base36DigitValue c) as [d |] eqn:Hd;
      [| discriminate H].
    apply base36DigitValue_range in Hd.
    destruct (IH _ H ltac:(lia)) as [Hlo Hhi]. split; [exact Hlo |].
    cbn [String.length]. rewrite Nat2Z.inj_succ, Z.pow_succ_r by lia.
    assert (0 < 36 ^ Z.of_nat (String.length s)) by (apply Z.pow_pos_nonneg; lia).
    nia.
Qed.

(** An ICAP address: its shape and its value. *)
Lemma fromIcap_inv (s : string) (a : Z) :
  fromIcap s = Some a ->
  exists c0 c1 d1 d2 body,
    s = String c0 (String c1 (String d1 (String d2 body)))
    /\ (String.length body = 30%nat \/ String.length body = 31%nat)
    /\ fromBase36 0 body = Some a.
Proof.
  destruct s as [| c0 [| c1 [| d1 [| d2 body]]]]; try discriminate.
  cbn [fromIcap]. intros H. exists c0, c1, d1, d2, body. split; [reflexivity |].
  destruct (Ascii.eqb c0 "X" && Ascii.eqb c1 "E" && isDecimalDigit d1 && isDecimalDigit d2)
    ; [| discriminate H].
  cbn [andb] in H.
  destruct (Nat.eqb_spec (String.length body) 30) as [H30 | _];
    [| destruct (Nat.eqb_spec (String.length body) 31) as [H31 | _];
       [| discriminate H]];
    cbn [orb andb] in H;
    (destruct (allBase36Digits body); [| discriminate H]);
    (destruct (ibanChecksum body) as [checksum |]; [| discriminate H]);
    (destruct (_ =? checksum); [| discriminate H]);
    (split; [auto | exact H]).
Qed.

(** Every address the coder accepts fits one word; one written as hex
    digits fits 160 bits. *)
Lemma parseAddress_range (s : string) (a : Z) :
  parseAddress s = Some a -> 0 <= a < 2 ^ 256.
Proof.
  intros H. destruct (isHexAddress s) eqn:Hhex.
  - destruct (parseAddress_inv s a Hhex H) as (_ & _ & _ & _ & Hr). lia.
  - unfold parseAddress in H. rewrite Hhex in H.
    destruct (fromIcap_inv s a H) as (c0 & c1 & d1 & d2 & body & _ & Hlen & Hv).
    apply fromBase36_bound in Hv; [| lia].
    assert (36 ^ 30 < 2 ^ 256) by reflexivity.
    assert (36 ^ 31 < 2 ^ 256) by reflexivity.
    destruct Hlen as [Hlen | Hlen]; rewrite Hlen in Hv;
      [change (Z.of_nat 30) with 30 in Hv | change (Z.of_nat 31) with 31 in Hv]; lia.
Qed.

Lemma sameHexForm_inv (c0 c1 : string) :
  sameHexForm c0 c1 = true ->
  isHexAddress c0 = true /\ isHexAddress c1 = true /\ hasHexPrefix c0 = hasHexPrefix c1.
Proof.
  unfold sameHexForm. intros H. apply andb_true_iff in H. destruct H as [H Hp].
  apply andb_true_iff in H. destruct H as [H0 H1].
  apply Bool.eqb_prop in Hp. auto.
Qed.

(** For two addresses written as hex digits in the same form, both with the
    prefix or both without it, the text comparison of the code is the
    comparison of the two 160-bit numbers. *)
Lemma ltb_toLowerCase_addresses (c0 c1 : string) (a0 a1 : Z) :
  parseAddress c0 = Some a0 -> parseAddress c1 = Some a1 ->
  sameHexForm c0 c1 = true ->
  String.ltb (toLowerCase c0) (toLowerCase c1) = (a0 <? a1).
Proof.
  intros H0 H1 Hform.
  destruct (sameHexForm_inv _ _ Hform) as (Hhex0 & Hhex1 & Hsame).
  destruct (parseAddress_inv c0 a0 Hhex0 H0) as (b0 & Hb0 & Hl0 & Hp0 & _).
  destruct (parseAddress_inv c1 a1 Hhex1 H1) as (b1 & Hb1 & Hl1 & Hp1 & _).
  unfold hasHexPrefix in Hsame. unfold addressBody in Hb0, Hb1.
  destruct (stripHexPrefix c0) as [x0 |] eqn:Hs0;
    destruct (stripHexPrefix c1) as [x1 |] eqn:Hs1; try discriminate Hsame;
    subst b0 b1.
  - apply stripHexPrefix_inv in Hs0, Hs1. subst c0 c1.
    unfold String.ltb. cbn [toLowerCase String.compare].
    change (toLowerCaseChar "0") with "0"%char.
    change (toLowerCaseChar "x") with "x"%char.
    change (Ascii.compare "0" "0") with Eq. change (Ascii.compare "x" "x") with Eq.
    cbv iota.
    rewrite (compare_hex_strings x0 x1 a0 a1) by congruence.
    unfold Z.ltb. reflexivity.
  - unfold String.ltb.
    rewrite (compare_hex_strings c0 c1 a0 a1) by congruence.
    unfold Z.ltb. reflexivity.
Qed.

Lemma ltb_asym (s1 s2 : string) :
  String.ltb s1 s2 = true -> String.ltb s2 s1 = false.
Proof.
  unfold String.ltb. rewrite (String.compare_antisym s2 s1).
  destruct (String.compare s1 s2); cbn; congruence.
Qed.

Lemma ltb_total (s1 s2 : string) :
  String.ltb s1 s2 = false -> String.ltb s2 s1 = false -> s1 = s2.
Proof.
  unfold String.ltb. intros H1 H2. apply String.compare_eq_iff.
  rewrite (String.compare_antisym s2 s1) in H2.
  destruct (String.compare s1 s2); cbn in *; congruence.
Qed.

(** Two spellings of one lower-case text name the same address. *)
Lemma parseAddress_same_lower (c0 c1 : string) (a0 a1 : Z) :
  toLowerCase c0 = toLowerCase c1 ->
  parseAddress c0 = Some a0 -> parseAddress c1 = Some a1 -> a0 = a1.
Proof.
  intros Hlow H0 H1.
  assert (String.length c0 = String.length c1) as Hlen
    by (rewrite <- (length_toLowerCase c0), Hlow; apply length_toLowerCase).
  assert (forall s a, isHexAddress s = false -> parseAddress s = Some a ->
            exists c0 c1 d1 d2 body,
              s = String c0 (String c1 (String d1 (String d2 body)))
              /\ (String.length body = 30%nat \/ String.length body = 31%nat)
              /\ fromBase36 0 body = Some a) as Hicap.
  { intros s a Hs H. unfold parseAddress in H. rewrite Hs in H.
    now apply fromIcap_inv. }
  destruct (isHexAddress c0) eqn:Hhex0; destruct (isHexAddress c1) eqn:Hhex1.
  - apply (parseAddress_toLowerCase _ _ Hhex0) in H0.
    apply (parseAddress_toLowerCase _ _ Hhex1) in H1. congruence.
  - apply isHexAddress_length in Hhex0.
    destruct (Hicap _ _ Hhex1 H1) as (? & ? & ? & ? & body & -> & Hb & _).
    cbn [String.length] in Hlen. lia.
  - apply isHexAddress_length in Hhex1.
    destruct (Hicap _ _ Hhex0 H0) as (? & ? & ? & ? & body & -> & Hb & _).
    cbn [String.length] in Hlen. lia.
  - destruct (Hicap _ _ Hhex0 H0) as (? & ? & ? & ? & body0 & -> & _ & Hv0).
    destruct (Hicap _ _ Hhex1 H1) as (? & ? & ? & ? & body1 & -> & _ & Hv1).
    cbn [toLowerCase] in Hlow. injection Hlow as _ _ _ _ Hbody.
    rewrite <- fromBase36_toLowerCase, Hbody, fromBase36_toLowerCase in Hv0.
    congruence.
Qed.

(** On a tie of the lower-cased texts the code takes its second branch. *)
Lemma sortCurrencies_tie (c0 c1 : string) :
  toLowerCase c0 = toLowerCase c1 -> sortCurrencies c0 c1 = (c1, c0).
Proof.
  intros H. unfold sortCurrencies, String.ltb. rewrite H.
  assert (String.compare (toLowerCase c1) (toLowerCase c1) = Eq) as ->; [| reflexivity].
  pose proof (String.compare_antisym (toLowerCase c1) (toLowerCase c1)) as Ha.
  destruct (String.compare (toLowerCase c1) (toLowerCase c1)); cbn in Ha; congruence.
Qed.

(** The pair of numbers in the order in which the code encodes them. *)
Local Abbreviation encodedPair c0 c1 a0 a1 :=
  (if String.ltb (toLowerCase c0) (toLowerCase c1) then (a0, a1) else (a1, a0)).

(** On well-formed arguments the identifier is the digest of five words:
    the two addresses in the order of their lower-cased texts, the fee, the
    tick spacing (sign-extended) and the hook. *)
Lemma calculatePoolId_returns
    (currency0 currency1 : string) (fee tickSpacing : Z) (hookAddress : option string)
    (a0 a1 h : Z) :
  parseAddress currency0 = Some a0 ->
  parseAddress currency1 = Some a1 ->
  parseAddress (hookOrZero hookAddress) = Some h ->
  0 <= fee < 2 ^ 24 ->
  - 2 ^ 23 <= tickSpacing < 2 ^ 23 ->
  calculatePoolId keccak256 currency0 currency1 fee tickSpacing hookAddress
  = Return (hexlify (keccak256
      (toBeBytes 32 (fst (encodedPair currency0 currency1 a0 a1))
       ++ toBeBytes 32 (snd (encodedPair currency0 currency1 a0 a1))
       ++ toBeBytes 32 fee ++ toBeBytes 32 tickSpacing ++ toBeBytes 32 h))).
Proof.
  intros H0 H1 Hh Hfee Hts.
  assert ((validWidth 24 && (0 <=? fee) && (fee <? 2 ^ 24)) = true) as Efee.
  { apply andb_true_iff. split; [apply andb_true_iff; split; [reflexivity |] |].
    - apply Z.leb_le; lia.
    - apply Z.ltb_lt; lia. }
  assert ((validWidth 24 && (- 2 ^ (24 - 1) <=? tickSpacing)
           && (tickSpacing <? 2 ^ (24 - 1))) = true) as Ets.
  { apply andb_true_iff. split; [apply andb_true_iff; split; [reflexivity |] |].
    - apply Z.leb_le. change (24 - 1) with 23. lia.
    - apply Z.ltb_lt. change (24 - 1) with 23. lia. }
  unfold calculatePoolId, sortCurrencies.
  destruct (String.ltb (toLowerCase currency0) (toLowerCase currency1));
    cbn [AbiCoder_encode encodeValue bindOutcome];
    rewrite H0, H1, Hh, Efee, Ets; cbn [bindOutcome fst snd]; rewrite app_nil_r;
    reflexivity.
Qed.

(** When the two addresses are written as hex digits in the same form, the
    smaller address comes first. *)
Lemma calculatePoolId_wellformed
    (currency0 currency1 : string) (fee tickSpacing : Z) (hookAddress : option string)
    (a0 a1 h : Z) :
  parseAddress currency0 = Some a0 ->
  parseAddress currency1 = Some a1 ->
  sameHexForm currency0 currency1 = true ->
  parseAddress (hookOrZero hookAddress) = Some h ->
  0 <= fee < 2 ^ 24 ->
  - 2 ^ 23 <= tickSpacing < 2 ^ 23 ->
  calculatePoolId keccak256 currency0 currency1 fee tickSpacing hookAddress
  = Return (hexlify (keccak256
      (toBeBytes 32 (Z.min a0 a1) ++ toBeBytes 32 (Z.max a0 a1) ++ toBeBytes 32 fee
       ++ toBeBytes 32 tickSpacing ++ toBeBytes 32 h))).
Proof.
  intros H0 H1 Hform Hh Hfee Hts.
  rewrite (calculatePoolId_returns _ _ _ _ _ a0 a1 h) by assumption.
  rewrite (ltb_toLowerCase_addresses currency0 currency1 a0 a1 H0 H1 Hform).
  destruct (Z.ltb_spec a0 a1); cbn [fst snd].
  - now rewrite Z.min_l, Z.max_r by lia.
  - now rewrite Z.min_r, Z.max_l by lia.
Qed.

(** C3: canonicalization symmetry.  Swapping the two addresses at the call
    site never changes the outcome of [calculatePoolId], whatever the fee,
    the tick spacing and the hook; on well-formed arguments that outcome
    is an identifier, the same for both orders. *)
Theorem identifier_symmetric
    (currencyA currencyB : string) (fee tickSpacing : Z) (hookAddress : option string) :
  calculatePoolId keccak256 currencyA currencyB fee tickSpacing hookAddress
  = calculatePoolId keccak256 currencyB currencyA fee tickSpacing hookAddress
  /\ forall a b h,
       parseAddress currencyA = Some a ->
       parseAddress currencyB = Some b ->
       parseAddress (hookOrZero hookAddress) = Some h ->
       0 <= fee < 2 ^ 24 ->
       - 2 ^ 23 <= tickSpacing < 2 ^ 23 ->
       exists identifier,
         calculatePoolId keccak256 currencyA currencyB fee tickSpacing hookAddress
         = Return identifier
         /\ calculatePoolId keccak256 currencyB currencyA fee tickSpacing hookAddress
            = Return identifier.
Proof.
  assert (calculatePoolId keccak256 currencyA currencyB fee tickSpacing hookAddress
          = calculatePoolId keccak256 currencyB currencyA fee tickSpacing hookAddress)
    as Hsym.
  { unfold calculatePoolId, sortCurrencies.
    destruct (String.ltb (toLowerCase currencyA) (toLowerCase currencyB)) eqn:Hab;
      destruct (String.ltb (toLowerCase currencyB) (toLowerCase currencyA)) eqn:Hba;
      try reflexivity.
    + apply ltb_asym in Hab. congruence.
    + pose proof (ltb_total _ _ Hab Hba) as Hlow.
      cbn [AbiCoder_encode encodeValue bindOutcome].
      destruct (parseAddress currencyA) as [a |] eqn:Ha;
        destruct (parseAddress currencyB) as [b |] eqn:Hb;
        cbn [bindOutcome]; try reflexivity.
      now rewrite (parseAddress_same_lower currencyA currencyB a b Hlow Ha Hb). }
  split; [exact Hsym |].
  intros a b h Ha Hb Hh Hfee Hts. eexists. split.
  - apply (calculatePoolId_returns _ _ _ _ _ a b h); assumption.
  - rewrite <- Hsym. apply (calculatePoolId_returns _ _ _ _ _ a b h); assumption.
Qed.


End IdentifierComputer.

(** ** The slot prober *)

Section SlotProber.

Import StorageSlotFinder.

Variable keccak256 : Hasher.

Lemma indices_succ (first : Z) (count : nat) :
  indices first (S count) = first :: indices (first + 1) count.
Proof.
  unfold indices. cbn [seq map]. rewrite Z.add_0_r. f_equal.
  rewrite <- seq_shift, map_map. apply map_ext. intros k. lia.
Qed.

(** What [readStorageSlot] gives back: it records the read, and it always
    returns, with [null] in place of a rejected read. *)
Lemma readStorageSlot_run (provider : Provider) (storageSlot : string)
    (sent : list Request) :
  readStorageSlot provider storageSlot sent
  = (Return (match provider POOL_MANAGER_ADDRESS storageSlot with
             | Resolved data => Some data
             | Rejected _ => None
             end),
     sent ++ [(POOL_MANAGER_ADDRESS, storageSlot)]).
Proof.
  unfold readStorageSlot, tryCatch, bind, readStorage, ret.
  destruct (provider POOL_MANAGER_ADDRESS storageSlot); reflexivity.
Qed.

(** One turn of the loop. *)
Lemma probeFrom_step (provider : Provider) (poolId expected : string)
    (remaining : nat) (slotNumber : Z) (sent : list Request) :
  probeFrom keccak256 provider poolId expected (S remaining) slotNumber sent
  = match calculateStorageSlot keccak256 poolId slotNumber with
    | Throw e => (Throw e, sent)
    | Return storageSlot =>
        let sent' := sent ++ [(POOL_MANAGER_ADDRESS, storageSlot)] in
        match provider POOL_MANAGER_ADDRESS storageSlot with
        | Resolved data =>
            if negb (String.eqb data EmptyString) && String.eqb data expected
            then (Return (Some slotNumber), sent')
            else probeFrom keccak256 provider poolId expected remaining
                   (slotNumber + 1) sent'
        | Rejected _ =>
            probeFrom keccak256 provider poolId expected remaining (slotNumber + 1) sent'
        end
    end.
Proof.
  cbn [probeFrom]. unfold bind at 1. unfold liftOutcome.
  destruct (calculateStorageSlot keccak256 poolId slotNumber) as [storageSlot | e];
    [| reflexivity].
  unfold bind. rewrite readStorageSlot_run. cbv zeta.
  destruct (provider POOL_MANAGER_ADDRESS storageSlot) as [data | message];
    [| reflexivity].
  cbn [truthy]. destruct (negb (String.eqb data EmptyString)); [| reflexivity].
  cbn [andb]. destruct (String.eqb data expected); reflexivity.
Qed.

Section WithKey.

Variable provider : Provider.
Variables (poolId : string) (key : list byte) (expected : string).
Hypothesis key_bytes : getBytes poolId = Some key.
Hypothesis key_length : List.length key = 32%nat.

Local Abbreviation slotOf i := (hexlify (keccak256 (key ++ toBeBytes 32 i))).
Local Abbreviation request := (fun i : Z => (POOL_MANAGER_ADDRESS, slotOf i)).
Local Abbreviation hit i :=
  (provider POOL_MANAGER_ADDRESS (slotOf i) = Resolved expected).

Lemma calculateStorageSlot_key (i : Z) :
  0 <= i < 2 ^ 256 -> calculateStorageSlot keccak256 poolId i = Return (slotOf i).
Proof.
  intros Hi. unfold calculateStorageSlot.
  now rewrite (encode_bytes32_uint256 poolId key i key_bytes key_length Hi).
Qed.

(** No index holds the expected word: every index is read, in ascending
    order, and the loop ends without a result. *)
Lemma probeFrom_exhausts (count : nat) (first : Z) (sent : list Request) :
  0 <= first -> first + Z.of_nat count <= 2 ^ 256 ->
  (forall i, first <= i < first + Z.of_nat count -> ~ hit i) ->
  probeFrom keccak256 provider poolId expected count first sent
  = (Return None, sent ++ map request (indices first count)).
Proof.
  revert first sent. induction count as [| count IH]; intros first sent Hf Hl Hmiss.
  - cbn. now rewrite app_nil_r.
  - rewrite probeFrom_step, calculateStorageSlot_key by lia. cbv zeta.
    assert (~ hit first) as Hfirst by (apply Hmiss; lia).
    rewrite indices_succ. cbn [map].
    replace (sent ++ request first :: map request (indices (first + 1) count))
      with ((sent ++ [request first]) ++ map request (indices (first + 1) count))
      by (now rewrite <- app_assoc).
    assert (forall i, first + 1 <= i < first + 1 + Z.of_nat count -> ~ hit i) as Hrest
      by (intros i Hi; apply Hmiss; lia).
    destruct (provider POOL_MANAGER_ADDRESS (slotOf first)) as [data | message].
    + destruct (String.eqb_spec data EmptyString) as [-> | Hne]; cbn [negb andb].
      * apply IH; [lia | lia | exact Hrest].
      * destruct (String.eqb_spec data expected) as [-> | Hne'];
          [now contradiction Hfirst |].
        apply IH; [lia | lia | exact Hrest].
    + apply IH; [lia | lia | exact Hrest].
Qed.

(** The lowest index that holds the expected word is returned, after the
    reads of the indices up to it and of no other. *)
Lemma probeFrom_finds (count : nat) (first i : Z) (sent : list Request) :
  expected <> EmptyString ->
  0 <= first -> first + Z.of_nat count <= 2 ^ 256 ->
  first <= i < first + Z.of_nat count ->
  hit i -> (forall j, first <= j < i -> ~ hit j) ->
  probeFrom keccak256 provider poolId expected count first sent
  = (Return (Some i),
     sent ++ map request (indices first (Z.to_nat (i + 1 - first)))).
Proof.
  intros Hexp. revert first sent.
  induction count as [| count IH]; intros first sent Hf Hl Hi Hhit Hlow; [lia |].
  rewrite probeFrom_step, calculateStorageSlot_key by lia. cbv zeta.
  destruct (Z.eq_dec first i) as [-> | Hne].
  - rewrite Hhit.
    destruct (String.eqb_spec expected EmptyString) as [E | _]; [contradiction |].
    rewrite String.eqb_refl. cbn [negb andb].
    replace (Z.to_nat (i + 1 - i)) with 1%nat by lia.
    unfold indices. cbn [seq map]. now rewrite Z.add_0_r.
  - assert (~ hit first) as Hfirst by (apply Hlow; lia).
    replace (Z.to_nat (i + 1 - first)) with (S (Z.to_nat (i + 1 - (first + 1)))) by lia.
    rewrite indices_succ. cbn [map].
    replace (sent ++ request first
             :: map request (indices (first + 1) (Z.to_nat (i + 1 - (first + 1)))))
      with ((sent ++ [request first])
            ++ map request (indices (first + 1) (Z.to_nat (i + 1 - (first + 1)))))
      by (now rewrite <- app_assoc).
    assert (forall j, first + 1 <= j < i -> ~ hit j) as Hrest
      by (intros j Hj; apply Hlow; lia).
    destruct (provider POOL_MANAGER_ADDRESS (slotOf first)) as [data | message].
    + destruct (String.eqb_spec data EmptyString) as [-> | Hne0]; cbn [negb andb].
      * apply IH; [lia | lia | lia | exact Hhit | exact Hrest].
      * destruct (String.eqb_spec data expected) as [-> | Hne'];
          [now contradiction Hfirst |].
        apply IH; [lia | lia | lia | exact Hhit | exact Hrest].
    + apply IH; [lia | lia | lia | exact Hhit | exact Hrest].
Qed.

(** C5: the probe.  For every 32-byte key, inclusive range of indices,
    non-empty expected word and reader, [probe] reads the slots of the
    indices of the range in ascending order and compares each reply with
    the expected word (equality of the two hex strings, which for the
    lower-case words of the node is equality byte for byte).  It returns
    the lowest index whose reply is the expected word, having read the
    indices up to that one only; when no index of the range matches it
    returns [null] after reading them all, and so it does on an all-zero
    reader with a non-zero expected word. *)
Theorem probe_returns_lowest_match (first last : Z) :
  expected <> EmptyString ->
  0 <= first -> last <= MAX_SAFE_INTEGER ->
  (forall i, first <= i <= last -> hit i -> (forall j, first <= j < i -> ~ hit j) ->
     probe keccak256 provider poolId expected first last []
     = (Return (Some i), map request (indices first (Z.to_nat (i + 1 - first)))))
  /\ ((forall i, first <= i <= last -> ~ hit i) ->
      probe keccak256 provider poolId expected first last []
      = (Return None, map request (indices first (Z.to_nat (last + 1 - first)))))
  /\ ((forall address slot, provider address slot = Resolved ZeroWord) ->
      expected <> ZeroWord ->
      probe keccak256 provider poolId expected first last []
      = (Return None, map request (indices first (Z.to_nat (last + 1 - first)))))
  /\ (forall word word' : list byte,
        String.eqb (hexlify word) (hexlify word') = true <-> word = word').
Proof.
  intros Hexp Hfirst Hlast. unfold MAX_SAFE_INTEGER in Hlast.
  assert (2 ^ 53 - 1 < 2 ^ 256) as Hbig by (vm_compute; reflexivity).
  assert ((forall i, first <= i <= last -> ~ hit i) ->
          probe keccak256 provider poolId expected first last []
          = (Return None, map request (indices first (Z.to_nat (last + 1 - first)))))
    as Hnone.
  { intros Hmiss. unfold probe.
    destruct (Z.lt_ge_cases last first) as [Hempty | Hrange].
    - replace (Z.to_nat (last + 1 - first)) with 0%nat by lia. reflexivity.
    - rewrite (probeFrom_exhausts (Z.to_nat (last + 1 - first)) first []);
        [reflexivity | lia | lia |].
      intros i Hi. apply Hmiss. lia. }
  split; [| split; [exact Hnone | split]].
  - intros i Hi Hhit Hlow. unfold probe.
    rewrite (probeFrom_finds (Z.to_nat (last + 1 - first)) first i []);
      [reflexivity | assumption | lia | lia | lia | assumption | assumption].
  - intros Hzero Hnz. apply Hnone. intros i _ Hhit.
    rewrite Hzero in Hhit. injection Hhit as Hw. now apply Hnz.
  - intros word word'. rewrite String.eqb_eq. split; [| now intros ->].
    intros Heq. pose proof (getBytes_hexlify word) as Hw.
    rewrite Heq, getBytes_hexlify in Hw. now injection Hw as <-.
Qed.

End WithKey.

Section WithProvider.

Variable provider : Provider.

Lemma probeFrom_silenced (poolId expected : string) (count : nat) (first : Z)
    (sent : list Request) :
  probeFrom keccak256 provider poolId expected count first sent
  = probeFrom keccak256 (silenced provider) poolId expected count first sent.
Proof.
  revert first sent. induction count as [| count IH]; intros first sent; [reflexivity |].
  rewrite !probeFrom_step.
  destruct (calculateStorageSlot keccak256 poolId first) as [slot | e]; [| reflexivity].
  cbv zeta. unfold silenced at 1.
  destruct (provider POOL_MANAGER_ADDRESS slot) as [data | message].
  - destruct (negb (String.eqb data EmptyString) && String.eqb data expected);
      [reflexivity | apply IH].
  - cbn [String.eqb negb andb]. apply IH.
Qed.

Lemma probeFrom_outcome (poolId expected : string) (count : nat) (first : Z)
    (sent : list Request) :
  (exists result, fst (probeFrom keccak256 provider poolId expected count first sent)
                  = Return result)
  \/ fst (probeFrom keccak256 provider poolId expected count first sent)
     = Throw EncodingError.
Proof.
  revert first sent. induction count as [| count IH]; intros first sent.
  - left. now exists None.
  - rewrite probeFrom_step. unfold calculateStorageSlot.
    destruct (AbiCoder_encode _ _) as [encoded | e] eqn:Henc; cbn [bindOutcome].
    + cbv zeta. destruct (provider _ _) as [data | message]; [| apply IH].
      destruct (negb (String.eqb data EmptyString) && String.eqb data expected);
        [| apply IH].
      left. now exists (Some first).
    + right. cbn [fst]. f_equal.
      cbn [AbiCoder_encode encodeValue bindOutcome] in Henc.
      repeat match type of Henc with
             | context [match ?x with _ => _ end] => destruct x; cbn [bindOutcome] in Henc
             end; congruence.
Qed.

(** C6, as the code has it: a rejected read does not reach the caller of
    the probe.  [readStorageSlot] catches it and returns [null]; the loop
    skips that index and goes on with the next one; the probe never ends
    with the failure of the reader, and its outcome is the outcome of the
    same probe on a reader whose rejected reads are empty replies. *)
Theorem rejected_read_is_skipped
    (poolId expected : string) (slotNumber : Z) (storageSlot message : string) :
  calculateStorageSlot keccak256 poolId slotNumber = Return storageSlot ->
  provider POOL_MANAGER_ADDRESS storageSlot = Rejected message ->
  (forall sent,
      readStorageSlot provider storageSlot sent
      = (Return None, sent ++ [(POOL_MANAGER_ADDRESS, storageSlot)]))
  /\ (forall remaining sent,
        probeFrom keccak256 provider poolId expected (S remaining) slotNumber sent
        = probeFrom keccak256 provider poolId expected remaining (slotNumber + 1)
            (sent ++ [(POOL_MANAGER_ADDRESS, storageSlot)]))
  /\ (forall first last sent failure,
        fst (probe keccak256 provider poolId expected first last sent)
        <> Throw (ReaderFailure failure))
  /\ (forall first last sent,
        probe keccak256 provider poolId expected first last sent
        = probe keccak256 (silenced provider) poolId expected first last sent).
Proof.
  intros Hslot Hrej. split; [| split; [| split]].
  - intros sent. now rewrite readStorageSlot_run, Hrej.
  - intros remaining sent. now rewrite probeFrom_step, Hslot, Hrej.
  - intros first last sent failure. unfold probe.
    destruct (probeFrom_outcome poolId expected (Z.to_nat (last + 1 - first)) first sent)
      as [[result ->] | ->]; discriminate.
  - intros first last sent. apply probeFrom_silenced.
Qed.

End WithProvider.

End SlotProber.

(** ** Keccak-256 on known inputs *)

Section KeccakFacts.

Import Keccak.

Lemma length_lanes (f : nat -> nat -> Z) : List.length (lanes f) = 25%nat.
Proof. unfold lanes. now rewrite length_map, length_seq. Qed.

Lemma length_iota (rc : Z) (s : State) : List.length (iota rc s) = List.length s.
Proof. destruct s; reflexivity. Qed.

Lemma length_round (s : State) (rc : Z) : List.length (round s rc) = 25%nat.
Proof. unfold round, chi. now rewrite length_iota, length_lanes. Qed.

Lemma length_keccakF1600 (s : State) : List.length (keccakF1600 s) = 25%nat.
Proof.
  unfold keccakF1600.
  change roundConstants with (removelast roundConstants ++ [0x8000000080008008]).
  rewrite fold_left_app. cbn [fold_left]. apply length_round.
Qed.

Lemma length_absorb (blocks : nat) (s : State) (data : list byte) :
  List.length s = 25%nat -> List.length (absorb blocks s data) = 25%nat.
Proof.
  revert s data. induction blocks as [| blocks IH]; intros s data Hs; [exact Hs |].
  cbn [absorb]. apply IH, length_keccakF1600.
Qed.

Lemma length_toLeBytes (n : nat) (v : Z) : List.length (toLeBytes n v) = n.
Proof. revert v. induction n as [| n IH]; intros v; cbn; [| rewrite IH]; reflexivity. Qed.

(** The digest always has 32 bytes. *)
Lemma length_keccak256 (message : list byte) :
  List.length (keccak256 message) = 32%nat.
Proof.
  unfold keccak256.
  pose proof (length_absorb (List.length (pad message) / rate) (repeat 0 25)
                (pad message) eq_refl) as H.
  destruct (absorb _ _ _) as [| a [| b [| c [| d s]]]]; try discriminate H.
  cbn [firstn flat_map]. rewrite !length_app, !length_toLeBytes. reflexivity.
Qed.

(** The digests of the empty message and of 64 zero bytes. *)
Example keccak256_empty :
  hexlify (keccak256 [])
  = "0xc5d2460186f7233c927e7db2dcc703c0e500b653ca82273b7bfad8045d85a470"%string.
Proof. vm_compute. reflexivity. Qed.

Example keccak256_zero_pair :
  hexlify (keccak256 (repeat x00 64))
  = "0xad3228b676f7d3cd4284a5443f17f1962b36e491b30a40b2405849e597ba5fb5"%string.
Proof. vm_compute. reflexivity. Qed.

End KeccakFacts.

(** ** [getAddress] on known spellings *)

(** Two check-summed test addresses of EIP-55 are read; with the case of
    one letter changed the first is refused. *)
Example parseAddress_checksummed :
  parseAddress "0x5aAeb6053F3E94C9b9A09f33669435E7Ef1BeAed"
  = Some 0x5aAeb6053F3E94C9b9A09f33669435E7Ef1BeAed
  /\ parseAddress "0xfB6916095ca1df60bB79Ce92cE3Ea74c37c5d359"
     = Some 0xfB6916095ca1df60bB79Ce92cE3Ea74c37c5d359
  /\ parseAddress "0x5aAeb6053F3E94C9b9A09f33669435E7Ef1BeAeD" = None.
Proof. repeat split; vm_compute; reflexivity. Qed.

(** One address in five spellings: lower-case, check-summed, upper-case
    digits, without the prefix, and ICAP.  The prefix [0X] is refused, and
    so is the ICAP spelling with another checksum or in lower case. *)
Example parseAddress_spellings :
  parseAddress Scenario.icapAsHex = Some 0x8ba1f109551bd432803012645ac136ddd64dba72
  /\ parseAddress Scenario.icapAsChecksum = parseAddress Scenario.icapAsHex
  /\ parseAddress "0x8BA1F109551BD432803012645AC136DDD64DBA72"
     = parseAddress Scenario.icapAsHex
  /\ parseAddress "8ba1f109551bd432803012645ac136ddd64dba72"
     = parseAddress Scenario.icapAsHex
  /\ parseAddress Scenario.icapAddress = parseAddress Scenario.icapAsHex
  /\ parseAddress "0X8ba1f109551bd432803012645ac136ddd64dba72" = None
  /\ parseAddress "XE66GB6LDNXYOFTX0NSV3FUWKOWIXAMJK36" = None
  /\ parseAddress (toLowerCase Scenario.icapAddress) = None.
Proof. repeat split; vm_compute; reflexivity. Qed.

(** The addresses of the scripts are check-summed spellings. *)
Example parseAddress_of_the_scripts :
  parseAddress Scenario.currency0 = Some 0x77933D339C88458450676156820D6e28bCc98BF5
  /\ parseAddress Scenario.currency1 = Some 0xfb4cCCd1485FD56C1E6BF93274778d2F7aBe546D
  /\ parseAddress Scenario.hookAddress = Some 0x70Fe3Fa2f8065898706674Acd03D7b2696161000
  /\ parseAddress StorageSlotFinder.POOL_MANAGER_ADDRESS
     = Some 0x05E73354cFDd6745C338b50BcFDfA3Aa6fA03408
  /\ parseAddress ZeroAddress = Some 0.
Proof. repeat split; vm_compute; reflexivity. Qed.

(** ** The scripts on their own constants *)

(** The two words differ in their top byte only. *)
Lemma decode_ignores_top_byte :
  UniswapV4PoolReader.sqrtPriceX96_of
    0xff0000004e20000000fd435c000000000000000000085a6afa601db20218ff54
  = UniswapV4PoolReader.sqrtPriceX96_of
      0x000000004e20000000fd435c000000000000000000085a6afa601db20218ff54.
Proof.
  apply (decode_ignores_top_bits
           "0xff0000004e20000000fd435c000000000000000000085a6afa601db20218ff54"
           "0x000000004e20000000fd435c000000000000000000085a6afa601db20218ff54"
           0xff0000004e20000000fd435c000000000000000000085a6afa601db20218ff54
           0x000000004e20000000fd435c000000000000000000085a6afa601db20218ff54).
  - reflexivity.
  - reflexivity.
  - intros i Hi.
    rewrite <- (Z.mod_pow2_bits_low
                  0xff0000004e20000000fd435c000000000000000000085a6afa601db20218ff54
                  232 i) by lia.
    rewrite <- (Z.mod_pow2_bits_low
                  0x000000004e20000000fd435c000000000000000000085a6afa601db20218ff54
                  232 i) by lia.
    reflexivity.
Defined.

(** The tick of the observed word: its field 0xfd435c has bit 23 set and is
    returned as 0xfd435c - 2^24. *)
Lemma signed_field_observed_word :
  exists state,
    UniswapV4PoolReader.decodePoolState StorageSlotFinder.EXPECTED_RAW_DATA = Some state
    /\ UniswapV4PoolReader.tick state = "-179364"%string
    /\ decimalOf (UniswapV4PoolReader.tick state) = Some (0xfd435c - 2 ^ 24).
Proof.
  exact (proj1 (proj2 (signed_field_twos_complement
           StorageSlotFinder.EXPECTED_RAW_DATA
           0x000000004e20000000fd435c000000000000000000085a6afa601db20218ff54
           eq_refl))).
Defined.

(** The four numbers of the object returned for the observed word. *)
Lemma decoded_fields_observed_word :
  exists state,
    UniswapV4PoolReader.decodePoolState StorageSlotFinder.EXPECTED_RAW_DATA = Some state
    /\ decimalOf (UniswapV4PoolReader.sqrtPriceX96 state)
       = Some 10098392936699872302137172
    /\ decimalOf (UniswapV4PoolReader.tick state) = Some (-179364)
    /\ decimalOf (UniswapV4PoolReader.protocolFee state) = Some 0
    /\ decimalOf (UniswapV4PoolReader.lpFee state) = Some 20000.
Proof.
  destruct (proj1 (decoded_fields_in_range StorageSlotFinder.EXPECTED_RAW_DATA
                     0x000000004e20000000fd435c000000000000000000085a6afa601db20218ff54
                     eq_refl))
    as (state & price & tickValue & fee0 & fee1 & Hstate & Hp & Ht & Hf0 & Hf1
        & _ & _ & _ & _ & Ep & Et & Ef0 & Ef1 & _).
  exists state. rewrite Hp, Ht, Hf0, Hf1, Ep, Et, Ef0, Ef1.
  split; [exact Hstate |]. repeat split.
Defined.

(** The slot of the known pool id under base slot 6. *)
Lemma derived_slot_known_pool :
  StorageSlotFinder.calculateStorageSlot Keccak.keccak256 StorageSlotFinder.KNOWN_POOL_ID 6
  = Return (hexlify (Keccak.keccak256 (Scenario.key ++ toBeBytes 32 6))).
Proof.
  apply (derived_slot_hashes_key_then_index Keccak.keccak256
           StorageSlotFinder.KNOWN_POOL_ID Scenario.key 6).
  - vm_compute. reflexivity.
  - reflexivity.
  - split; [discriminate | reflexivity].
Defined.

(** The identifier of the pool of [main] does not depend on the order of its
    two currencies. *)
Lemma identifier_symmetric_main :
  exists identifier,
    UniswapV4PoolReader.calculatePoolId Keccak.keccak256 Scenario.currency0
      Scenario.currency1 Scenario.fee Scenario.tickSpacing (Some Scenario.hookAddress)
    = Return identifier
    /\ UniswapV4PoolReader.calculatePoolId Keccak.keccak256 Scenario.currency1
         Scenario.currency0 Scenario.fee Scenario.tickSpacing (Some Scenario.hookAddress)
       = Return identifier.
Proof.
  apply (proj2 (identifier_symmetric Keccak.keccak256 Scenario.currency0 Scenario.currency1
                  Scenario.fee Scenario.tickSpacing (Some Scenario.hookAddress))
           0x77933D339C88458450676156820D6e28bCc98BF5
           0xfb4cCCd1485FD56C1E6BF93274778d2F7aBe546D
           0x70Fe3Fa2f8065898706674Acd03D7b2696161000).
  - vm_compute. reflexivity.
  - vm_compute. reflexivity.
  - vm_compute. reflexivity.
  - split; [discriminate | reflexivity].
  - split; [discriminate | reflexivity].
Defined.



(** On a node that holds the observed word under base slot 6 and zero
    elsewhere, the probe reads the slots of 0 to 6 and returns 6. *)
Lemma probe_finds_slot_6 :
  StorageSlotFinder.findCorrectPoolsSlot Keccak.keccak256 Scenario.node []
  = (Return (Some 6),
     map (fun i => (StorageSlotFinder.POOL_MANAGER_ADDRESS,
                    hexlify (Keccak.keccak256 (Scenario.key ++ toBeBytes 32 i))))
         (indices 0 7)).
Proof.
  apply (proj1 (probe_returns_lowest_match Keccak.keccak256 Scenario.node
                  StorageSlotFinder.KNOWN_POOL_ID Scenario.key
                  StorageSlotFinder.EXPECTED_RAW_DATA
                  ltac:(vm_compute; reflexivity) eq_refl 0 20
                  ltac:(discriminate) ltac:(discriminate) ltac:(discriminate)) 6).
  - split; discriminate.
  - vm_compute. reflexivity.
  - intros j Hj.
    assert (j = 0 \/ j = 1 \/ j = 2 \/ j = 3 \/ j = 4 \/ j = 5) as Hcases by lia.
    repeat (destruct Hcases as [-> | Hcases]; [vm_compute; discriminate |]).
    subst j. vm_compute. discriminate.
Defined.

(** The read of the slot of index 0 is rejected: the loop goes on from
    index 1 and the probe still returns 6. *)
Lemma flaky_probe_goes_on :
  StorageSlotFinder.probeFrom Keccak.keccak256 Scenario.flakyNode
    StorageSlotFinder.KNOWN_POOL_ID StorageSlotFinder.EXPECTED_RAW_DATA 21 0 []
  = StorageSlotFinder.probeFrom Keccak.keccak256 Scenario.flakyNode
      StorageSlotFinder.KNOWN_POOL_ID StorageSlotFinder.EXPECTED_RAW_DATA 20 (0 + 1)
      ([] ++ [(StorageSlotFinder.POOL_MANAGER_ADDRESS, Scenario.slot0)]).
Proof.
  apply (proj1 (proj2 (rejected_read_is_skipped Keccak.keccak256 Scenario.flakyNode
                         StorageSlotFinder.KNOWN_POOL_ID StorageSlotFinder.EXPECTED_RAW_DATA
                         0 Scenario.slot0 "timeout"
                         ltac:(vm_compute; reflexivity) ltac:(vm_compute; reflexivity)))).
Defined.

(** The reading of C6 as the spec words it fails: on a node that rejects
    every read the probe visits the 21 indices and returns [null]; the
    failure of the reader never reaches the caller. *)
Lemma reader_failure_not_surfaced :
  StorageSlotFinder.calculateStorageSlot Keccak.keccak256
    StorageSlotFinder.KNOWN_POOL_ID 0 = Return Scenario.slot0
  /\ Scenario.deadNode StorageSlotFinder.POOL_MANAGER_ADDRESS Scenario.slot0
     = Rejected "timeout"
  /\ fst (StorageSlotFinder.findCorrectPoolsSlot Keccak.keccak256 Scenario.deadNode [])
     = Return None
  /\ List.length
       (snd (StorageSlotFinder.findCorrectPoolsSlot Keccak.keccak256 Scenario.deadNode []))
     = 21%nat
  /\ fst (StorageSlotFinder.findCorrectPoolsSlot Keccak.keccak256 Scenario.flakyNode [])
     = Return (Some 6)
  /\ ~ ProbeSurfacesReaderFailure Keccak.keccak256.
Proof.
  split; [vm_compute; reflexivity |].
  split; [reflexivity |].
  split; [vm_compute; reflexivity |].
  split; [vm_compute; reflexivity |].
  split; [vm_compute; reflexivity |].
  intros Hclaim.
  specialize (Hclaim Scenario.deadNode StorageSlotFinder.KNOWN_POOL_ID
                StorageSlotFinder.EXPECTED_RAW_DATA 0 20 0 Scenario.slot0 "timeout"%string).
  assert (fst (StorageSlotFinder.probe Keccak.keccak256 Scenario.deadNode
                 StorageSlotFinder.KNOWN_POOL_ID StorageSlotFinder.EXPECTED_RAW_DATA 0 20 [])
          = Throw (ReaderFailure "timeout")) as Habs.
  { apply Hclaim.
    - lia.
    - vm_compute. reflexivity.
    - reflexivity.
    - intros j slot' Hj. lia. }
  vm_compute in Habs. discriminate Habs.
Qed.

(** The parameters of [main] give the pool id the scripts know. *)
Example main_pool_id :
  UniswapV4PoolReader.calculatePoolId Keccak.keccak256 Scenario.currency0
    Scenario.currency1 Scenario.fee Scenario.tickSpacing (Some Scenario.hookAddress)
  = Return StorageSlotFinder.KNOWN_POOL_ID.
Proof. vm_compute. reflexivity. Qed.

(** The single read of [readPoolStateRaw] does pass a rejected read on. *)
Example readPoolStateRaw_rethrows :
  fst (UniswapV4PoolReader.readPoolStateRaw Keccak.keccak256 Scenario.deadNode
         StorageSlotFinder.POOL_MANAGER_ADDRESS StorageSlotFinder.KNOWN_POOL_ID [])
  = Throw (ReaderFailure "timeout").
Proof. vm_compute. reflexivity. Qed.

(** A word whose tick bits are all ones: the object holds the tick -1. *)
Example decode_all_ones_tick :
  option_map UniswapV4PoolReader.tick
    (UniswapV4PoolReader.decodePoolState
       "0x000000000000000000ffffff0000000000000000000000000000000000000000")
  = Some "-1"%string.
Proof. vm_compute. reflexivity. Qed.

(** * Further properties of the scripts *)

(** ** Decoding: round trip and the heuristic of [testSpecificSlots] *)

Section DecoderRoundTrip.

Import UniswapV4PoolReader.

(** Cutting a number at bit [off]. *)
Lemma cut_at (off lo hi : Z) :
  0 <= off -> 0 <= lo < 2 ^ off ->
  (lo + 2 ^ off * hi) / 2 ^ off = hi /\ (lo + 2 ^ off * hi) mod 2 ^ off = lo.
Proof.
  intros Hoff Hlo.
  assert (0 < 2 ^ off) as Hpos by (apply Z.pow_pos_nonneg; lia).
  replace (lo + 2 ^ off * hi) with (lo + hi * 2 ^ off) by ring.
  split.
  - rewrite Z.div_add by lia. rewrite Z.div_small by assumption. lia.
  - rewrite Z.mod_add by lia. now apply Z.mod_small.
Qed.

Lemma tick_mod_range (t : Z) : 0 <= t mod 2 ^ 24 < 2 ^ 24.
Proof. apply Z.mod_pos_bound. lia. Qed.

(** The sign conversion of the code undoes the two's-complement storage. *)
Lemma signed_of_stored (t : Z) :
  - 2 ^ 23 <= t < 2 ^ 23 ->
  (if t mod 2 ^ 24 >? maxTickValue then t mod 2 ^ 24 - Z.shiftl 1 24 else t mod 2 ^ 24) = t.
Proof.
  intros Ht. unfold maxTickValue.
  change (Z.shiftl 1 23 - 1) with (2 ^ 23 - 1). change (Z.shiftl 1 24) with (2 ^ 24).
  destruct (Z.lt_ge_cases t 0) as [Hneg | Hpos].
  - replace (t mod 2 ^ 24) with (t + 2 ^ 24).
    + destruct (Z.gtb_spec (t + 2 ^ 24) (2 ^ 23 - 1)); lia.
    + symmetry. rewrite <- (Z.mod_add t 1 (2 ^ 24)) by lia.
      apply Z.mod_small. lia.
  - rewrite Z.mod_small by lia.
    destruct (Z.gtb_spec t (2 ^ 23 - 1)); lia.
Qed.

(** Round trip.  Four field values within their ranges, stored in a word at
    the offsets 0, 160, 184 and 208 (whatever the top 24 bits hold), are the
    values [decodePoolState] reads back, as numbers and in the object it
    returns for the hex string of the word. *)
Theorem decode_round_trip (p t pf lf top : Z) :
  0 <= p < 2 ^ 160 ->
  - 2 ^ 23 <= t < 2 ^ 23 ->
  0 <= pf < 2 ^ 24 ->
  0 <= lf < 2 ^ 24 ->
  0 <= top < 2 ^ 24 ->
  let word := packPoolState p t pf lf top in
  0 <= word < 2 ^ 256
  /\ sqrtPriceX96_of word = p
  /\ signedTick_of word = t
  /\ protocolFee_of word = pf
  /\ lpFee_of word = lf
  /\ decodePoolState (hexlify (toBeBytes 32 word))
     = Some {| sqrtPriceX96 := BigInt_toString p;
               tick := BigInt_toString t;
               protocolFee := BigInt_toString pf;
               lpFee := BigInt_toString lf;
               rawData := hexlify (toBeBytes 32 word) |}.
Proof.
  intros Hp Ht Hpf Hlf Htop. cbv zeta.
  pose proof (tick_mod_range t) as Htm.
  set (tm := t mod 2 ^ 24) in *.
  assert (packPoolState p t pf lf top
          = p + 2 ^ 160 * (tm + 2 ^ 24 * (pf + 2 ^ 24 * (lf + 2 ^ 24 * top)))) as E160.
  { unfold packPoolState. fold tm. ring. }
  assert (packPoolState p t pf lf top
          = (p + 2 ^ 160 * tm) + 2 ^ 184 * (pf + 2 ^ 24 * (lf + 2 ^ 24 * top))) as E184.
  { unfold packPoolState. fold tm. ring. }
  assert (packPoolState p t pf lf top
          = (p + 2 ^ 160 * tm + 2 ^ 184 * pf) + 2 ^ 208 * (lf + 2 ^ 24 * top)) as E208.
  { unfold packPoolState. fold tm. ring. }
  assert (0 <= packPoolState p t pf lf top < 2 ^ 256) as Hword.
  { unfold packPoolState. fold tm. lia. }
  assert (sqrtPriceX96_of (packPoolState p t pf lf top) = p) as Rp.
  { rewrite sqrtPriceX96_of_eq, E160. apply cut_at; lia. }
  assert (tick_of (packPoolState p t pf lf top) = tm) as Rt.
  { rewrite tick_of_eq, E160.
    rewrite (proj1 (cut_at 160 p _ ltac:(lia) Hp)).
    apply (cut_at 24 tm); lia. }
  assert (signedTick_of (packPoolState p t pf lf top) = t) as Rs.
  { unfold signedTick_of. cbv zeta. rewrite Rt. now apply signed_of_stored. }
  assert (protocolFee_of (packPoolState p t pf lf top) = pf) as Rf.
  { rewrite protocolFee_of_eq, E184.
    rewrite (proj1 (cut_at 184 (p + 2 ^ 160 * tm) _ ltac:(lia) ltac:(lia))).
    apply (cut_at 24 pf); lia. }
  assert (lpFee_of (packPoolState p t pf lf top) = lf) as Rl.
  { rewrite lpFee_of_eq, E208.
    rewrite (proj1 (cut_at 208 (p + 2 ^ 160 * tm + 2 ^ 184 * pf) _ ltac:(lia) ltac:(lia))).
    apply (cut_at 24 lf); lia. }
  split; [exact Hword |].
  split; [exact Rp |]. split; [exact Rs |]. split; [exact Rf |]. split; [exact Rl |].
  rewrite (decodePoolState_fields _ (packPoolState p t pf lf top)).
  - now rewrite Rp, Rs, Rf, Rl.
  - rewrite BigInt_hexlify.
    + now rewrite beValue_word.
    + intros E. apply (f_equal (@List.length byte)) in E.
      rewrite length_toBeBytes in E. discriminate E.
Qed.

End DecoderRoundTrip.

(** ** [testSpecificSlots] *)

Section SpecificSlots.

Import UniswapV4PoolReader StorageSlotFinder.

Lemma BigInt_nonempty (word : string) (d : Z) : BigInt word = Some d -> word <> EmptyString.
Proof. intros H ->. discriminate H. Qed.

(** What the loop prints for a reply that is a hex word other than the zero
    word: the two fields as unsigned numbers.  The tick it prints is the
    signed tick of [decodePoolState] modulo 2^24, that is the signed tick
    plus 2^24 when that one is negative; the line "looks like valid pool
    data" follows exactly when neither sqrtPriceX96 nor the tick is zero, a
    negative tick included. *)
Theorem testSpecificSlots_prints_unsigned_tick (slot : Z) (word : string) (d : Z) :
  BigInt word = Some d ->
  word <> ZeroWord ->
  reportSlot slot (Some word)
  = SlotDecoded slot word (BigInt_toString (sqrtPriceX96_of d))
      (BigInt_toString (tick_of d))
      (negb (sqrtPriceX96_of d =? 0) && negb (signedTick_of d =? 0))
  /\ tick_of d = signedTick_of d mod 2 ^ 24
  /\ (signedTick_of d < 0 -> tick_of d = signedTick_of d + 2 ^ 24)
  /\ (0 <= signedTick_of d -> tick_of d = signedTick_of d).
Proof.
  intros Hbig Hnz.
  pose proof (tick_of_range d) as Htk.
  assert (0 <= sqrtPriceX96_of d) as Hp.
  { rewrite sqrtPriceX96_of_eq. apply Z.mod_pos_bound. lia. }
  assert (signedTick_of d = tick_of d \/ signedTick_of d = tick_of d - 2 ^ 24) as Hs.
  { rewrite signedTick_of_eq. destruct (Z.testbit (tick_of d) 23); auto. }
  pose proof (signedTick_of_range d) as Hsr.
  split; [| split; [| split]].
  - unfold reportSlot. cbn [truthy].
    destruct (String.eqb_spec word EmptyString) as [E | _];
      [now apply BigInt_nonempty in Hbig |].
    destruct (String.eqb_spec word ZeroWord) as [E | _]; [contradiction |].
    cbn [negb andb]. rewrite Hbig. cbv zeta.
    change (Z.land d (Z.shiftl 1 160 - 1)) with (sqrtPriceX96_of d).
    change (Z.land (Z.shiftr d 160) (Z.shiftl 1 24 - 1)) with (tick_of d).
    f_equal. f_equal.
    + destruct (Z.gtb_spec (sqrtPriceX96_of d) 0), (Z.eqb_spec (sqrtPriceX96_of d) 0);
        cbn; try reflexivity; lia.
    + destruct (Z.gtb_spec (tick_of d) 0), (Z.eqb_spec (signedTick_of d) 0);
        cbn; try reflexivity; lia.
  - destruct Hs as [-> | ->].
    + symmetry. apply Z.mod_small. lia.
    + rewrite <- (Z.mod_add (tick_of d - 2 ^ 24) 1 (2 ^ 24)) by lia.
      replace (tick_of d - 2 ^ 24 + 1 * 2 ^ 24) with (tick_of d) by lia.
      symmetry. apply Z.mod_small. lia.
  - intros Hneg. lia.
  - intros Hpos. lia.
Qed.

(** A slot is reported empty exactly when its read was rejected or gave the
    empty string or the zero word. *)
Lemma reportSlot_empty_iff (slot : Z) (data : option string) :
  reportSlot slot data = SlotEmpty slot
  <-> data = None \/ data = Some EmptyString \/ data = Some ZeroWord.
Proof.
  unfold reportSlot. destruct data as [word |]; [| intuition congruence].
  cbn [truthy].
  destruct (String.eqb_spec word EmptyString) as [-> | Hne]; cbn [negb andb];
    [intuition congruence |].
  destruct (String.eqb_spec word ZeroWord) as [-> | Hnz]; cbn [negb];
    [intuition congruence |].
  destruct (BigInt word); split; intros H; try discriminate H;
    destruct H as [H | [H | H]]; congruence.
Qed.

Variable keccak256 : Hasher.
Variable provider : Provider.

Local Abbreviation slotOf i := (hexlify (keccak256 (Scenario.key ++ toBeBytes 32 i))).
Local Abbreviation replyOf i :=
  (match provider POOL_MANAGER_ADDRESS (slotOf i) with
   | Resolved data => Some data
   | Rejected _ => None
   end).

Lemma testSlots_run (likelySlots : list Z) (sent : list Request) :
  Forall (fun i => 0 <= i < 2 ^ 256) likelySlots ->
  testSlots keccak256 provider likelySlots sent
  = (Return (map (fun i => reportSlot i (replyOf i)) likelySlots),
     sent ++ map (fun i => (POOL_MANAGER_ADDRESS, slotOf i)) likelySlots).
Proof.
  intros Hall. revert sent.
  induction Hall as [| i rest Hi Hrest IH]; intros sent.
  - cbn. now rewrite app_nil_r.
  - cbn [testSlots map]. unfold bind at 1, liftOutcome.
    rewrite (calculateStorageSlot_key keccak256 KNOWN_POOL_ID Scenario.key
               eq_refl eq_refl i Hi).
    unfold bind at 1. rewrite readStorageSlot_run.
    unfold bind, ret. rewrite IH, <- app_assoc. reflexivity.
Qed.

(** [testSpecificSlots] never stops early and never fails: whatever the node
    answers, and even when a slot holds the expected word or a read is
    rejected, it reads the eleven slots of the indices 0 to 10 in ascending
    order and prints one report for each. *)
Theorem testSpecificSlots_reads_every_slot (sent : list Request) :
  testSpecificSlots keccak256 provider sent
  = (Return (map (fun i => reportSlot i (replyOf i)) (indices 0 11)),
     sent ++ map (fun i => (POOL_MANAGER_ADDRESS, slotOf i)) (indices 0 11)).
Proof.
  unfold testSpecificSlots. rewrite testSlots_run; [reflexivity |].
  repeat constructor; lia.
Qed.

End SpecificSlots.

(** ** Failures of the slot derivation and of the reads *)

Section SlotFailures.

Import StorageSlotFinder.

Variable keccak256 : Hasher.

Lemma calculateStorageSlot_cases (poolId : string) (slotNumber : Z) :
  calculateStorageSlot keccak256 poolId slotNumber
  = match getBytes poolId with
    | Some key =>
        if Nat.eqb (List.length key) 32 && (0 <=? slotNumber) && (slotNumber <? 2 ^ 256)
        then Return (hexlify (keccak256 (key ++ toBeBytes 32 slotNumber)))
        else Throw EncodingError
    | None => Throw EncodingError
    end.
Proof.
  unfold calculateStorageSlot.
  cbn [AbiCoder_encode encodeValue bindOutcome].
  destruct (getBytes poolId) as [key |]; [| reflexivity].
  destruct (Nat.eqb_spec (List.length key) 32) as [Hlen | Hlen].
  - rewrite Hlen. cbn [Z.of_nat Z.eqb Pos.eqb Z.leb Z.compare Pos.compare Pos.compare_cont
                        andb Nat.sub repeat bindOutcome].
    change (validWidth 256) with true. cbn [andb].
    destruct ((0 <=? slotNumber) && (slotNumber <? 2 ^ 256)); cbn [bindOutcome];
      [now rewrite !app_nil_r | reflexivity].
  - replace (Z.of_nat (List.length key) =? 32) with false
      by (symmetry; apply Z.eqb_neq; lia).
    rewrite andb_false_r. reflexivity.
Qed.

(** [calculateStorageSlot] on every input.  A returned slot is the digest
    of key and index, for a pool id that [getBytes] reads as 32 bytes and an
    index that fits 256 bits without sign; the call does return on every such
    pool id, in either spelling of the prefix, and every index from 0 to
    [Number.MAX_SAFE_INTEGER].  A pool id that is no hex string or has
    another length, a negative index and an index of 2^256 or more all end
    in an EncodingError, the only error this function throws. *)
Theorem calculateStorageSlot_outcome (poolId : string) (slotNumber : Z) :
  (forall slot,
      calculateStorageSlot keccak256 poolId slotNumber = Return slot ->
      exists key,
        getBytes poolId = Some key /\ List.length key = 32%nat
        /\ 0 <= slotNumber < 2 ^ 256
        /\ slot = hexlify (keccak256 (key ++ toBeBytes 32 slotNumber)))
  /\ (forall key,
        getBytes poolId = Some key -> List.length key = 32%nat ->
        0 <= slotNumber <= MAX_SAFE_INTEGER ->
        calculateStorageSlot keccak256 poolId slotNumber
        = Return (hexlify (keccak256 (key ++ toBeBytes 32 slotNumber))))
  /\ ((forall key, getBytes poolId = Some key -> List.length key <> 32%nat) ->
      calculateStorageSlot keccak256 poolId slotNumber = Throw EncodingError)
  /\ (slotNumber < 0 \/ 2 ^ 256 <= slotNumber ->
      calculateStorageSlot keccak256 poolId slotNumber = Throw EncodingError)
  /\ (forall e, calculateStorageSlot keccak256 poolId slotNumber = Throw e ->
                e = EncodingError).
Proof.
  rewrite calculateStorageSlot_cases.
  assert (MAX_SAFE_INTEGER < 2 ^ 256) as Hsafe by reflexivity.
  destruct (getBytes poolId) as [key |].
  - destruct (Nat.eqb_spec (List.length key) 32) as [Hlen | Hlen];
      destruct (Z.leb_spec 0 slotNumber) as [Hlo | Hlo];
      destruct (Z.ltb_spec slotNumber (2 ^ 256)) as [Hhi | Hhi]; cbn [andb];
      (split; [intros slot Hret; try discriminate Hret; injection Hret as <-;
               exists key; repeat split; auto
              | split; [intros key' Hk Hl Hr; injection Hk as <-;
                        try reflexivity; try contradiction; lia
                       | split; [intros Hbad; try reflexivity;
                                 now contradiction (Hbad key eq_refl)
                                | split; [intros Hout; try reflexivity; lia
                                         | intros e He; try discriminate He;
                                           congruence]]]]).
  - split; [discriminate |].
    split; [intros key Hk; discriminate Hk |].
    split; [reflexivity |]. split; [reflexivity |]. intros e He. congruence.
Qed.

(** A single read of [readPoolStateRaw]: for a well-formed pool id it sends
    one read, of the slot under base slot 6, and passes on what the node
    answers, the word or the failure (the catch block throws it again); with
    a malformed pool id it fails before any read. *)
Theorem readPoolStateRaw_outcome
    (provider : Provider) (poolManagerAddress poolId : string) (sent : list Request) :
  UniswapV4PoolReader.readPoolStateRaw keccak256 provider poolManagerAddress poolId sent
  = match getBytes poolId with
    | Some key =>
        if Nat.eqb (List.length key) 32 then
          (match provider poolManagerAddress (hexlify (keccak256 (key ++ toBeBytes 32 6))) with
           | Resolved data => Return data
           | Rejected message => Throw (ReaderFailure message)
           end,
           sent ++ [(poolManagerAddress, hexlify (keccak256 (key ++ toBeBytes 32 6)))])
        else (Throw EncodingError, sent)
    | None => (Throw EncodingError, sent)
    end.
Proof.
  pose proof (calculateStorageSlot_cases poolId 6) as Hslot.
  change (calculateStorageSlot keccak256 poolId 6)
    with (UniswapV4PoolReader.calculatePoolStorageSlot keccak256 poolId) in Hslot.
  unfold UniswapV4PoolReader.readPoolStateRaw, tryCatch, bind, liftOutcome, throw, ret.
  rewrite Hslot.
  destruct (getBytes poolId) as [key |]; [| reflexivity].
  destruct (Nat.eqb (List.length key) 32); [| reflexivity].
  cbn [andb Z.leb Z.ltb Z.compare]. change (6 <? 2 ^ 256) with true.
  unfold readStorage.
  destruct (provider poolManagerAddress _); reflexivity.
Qed.

Variable provider : Provider.

Local Abbreviation slotIs poolId j slot :=
  (calculateStorageSlot keccak256 poolId j = Return slot).
Local Abbreviation holds slot expected :=
  (provider POOL_MANAGER_ADDRESS slot = Resolved expected).

Lemma probeFrom_found_inv (poolId expected : string) (count : nat) (first i : Z)
    (sent sent' : list Request) :
  probeFrom keccak256 provider poolId expected count first sent = (Return (Some i), sent') ->
  first <= i < first + Z.of_nat count
  /\ expected <> EmptyString
  /\ (exists slot, slotIs poolId i slot /\ holds slot expected)
  /\ (forall j slot, first <= j < i -> slotIs poolId j slot -> ~ holds slot expected).
Proof.
  revert first sent. induction count as [| count IH]; intros first sent H;
    [discriminate H |].
  rewrite probeFrom_step in H.
  destruct (calculateStorageSlot keccak256 poolId first) as [slot0 | e] eqn:Hslot;
    [| discriminate H].
  cbv zeta in H.
  destruct (provider POOL_MANAGER_ADDRESS slot0) as [data | message] eqn:Hreply.
  - destruct (String.eqb_spec data EmptyString) as [Hempty | Hne];
      cbn [negb andb] in H.
    + destruct (IH _ _ H) as (Hi & Hexp & Hhit & Hlow).
      split; [lia |]. split; [exact Hexp |]. split; [exact Hhit |].
      intros j slot Hj Hs.
      destruct (Z.eq_dec j first) as [-> | Hjne]; [| apply (Hlow j slot); [lia | exact Hs]].
      rewrite Hslot in Hs. injection Hs as <-. rewrite Hreply. congruence.
    + destruct (String.eqb_spec data expected) as [-> | Hne'].
      * injection H as <- _. split; [lia |]. split; [exact Hne |].
        split; [now exists slot0 |]. intros j slot Hj. lia.
      * destruct (IH _ _ H) as (Hi & Hexp & Hhit & Hlow).
        split; [lia |]. split; [exact Hexp |]. split; [exact Hhit |].
        intros j slot Hj Hs.
        destruct (Z.eq_dec j first) as [-> | Hjne]; [| apply (Hlow j slot); [lia | exact Hs]].
        rewrite Hslot in Hs. injection Hs as <-. rewrite Hreply. congruence.
  - destruct (IH _ _ H) as (Hi & Hexp & Hhit & Hlow).
    split; [lia |]. split; [exact Hexp |]. split; [exact Hhit |].
    intros j slot Hj Hs.
    destruct (Z.eq_dec j first) as [-> | Hjne]; [| apply (Hlow j slot); [lia | exact Hs]].
    rewrite Hslot in Hs. injection Hs as <-. rewrite Hreply. discriminate.
Qed.

Lemma probeFrom_none_inv (poolId expected : string) (count : nat) (first : Z)
    (sent sent' : list Request) :
  probeFrom keccak256 provider poolId expected count first sent = (Return None, sent') ->
  expected <> EmptyString ->
  forall j slot, first <= j < first + Z.of_nat count ->
                 slotIs poolId j slot -> ~ holds slot expected.
Proof.
  intros H Hexp. revert first sent H.
  induction count as [| count IH]; intros first sent H j slot Hj Hs; [lia |].
  rewrite probeFrom_step in H.
  destruct (calculateStorageSlot keccak256 poolId first) as [slot0 | e] eqn:Hslot;
    [| discriminate H].
  cbv zeta in H.
  assert (provider POOL_MANAGER_ADDRESS slot0 <> Resolved expected
          /\ probeFrom keccak256 provider poolId expected count (first + 1)
               (sent ++ [(POOL_MANAGER_ADDRESS, slot0)]) = (Return None, sent'))
    as [Hmiss Hrest].
  { revert H. destruct (provider POOL_MANAGER_ADDRESS slot0) as [data | message]; intros H.
    - destruct (String.eqb_spec data EmptyString) as [Hempty | Hne]; cbn [negb andb] in H.
      + split; [congruence | exact H].
      + destruct (String.eqb_spec data expected) as [Heq | Hne']; [discriminate H |].
        split; [congruence | exact H].
    - split; [discriminate | exact H]. }
  destruct (Z.eq_dec j first) as [-> | Hjne].
  - rewrite Hslot in Hs. injection Hs as <-. exact Hmiss.
  - apply (IH _ _ Hrest j slot); [lia | exact Hs].
Qed.

(** What a result of the probe tells.  When [probe] returns an index, that
    index lies in the range, its slot is computed without failure (as [main]
    computes it again for the caller), the node holds the expected word at
    that slot, and no lower index of the range does; when it returns [null]
    for a non-empty expected word, no index of the range holds the word. *)
Theorem probe_result_sound
    (poolId expected : string) (first last : Z) (sent sent' : list Request)
    (result : option Z) :
  probe keccak256 provider poolId expected first last sent = (Return result, sent') ->
  match result with
  | Some i =>
      first <= i <= last
      /\ (exists slot, slotIs poolId i slot /\ holds slot expected)
      /\ (forall j slot, first <= j < i -> slotIs poolId j slot -> ~ holds slot expected)
  | None =>
      expected <> EmptyString ->
      forall j slot, first <= j <= last -> slotIs poolId j slot -> ~ holds slot expected
  end.
Proof.
  unfold probe. intros H. destruct result as [i |].
  - destruct (probeFrom_found_inv _ _ _ _ _ _ _ H) as (Hi & _ & Hhit & Hlow).
    split; [lia |]. split; assumption.
  - intros Hexp j slot Hj. apply (probeFrom_none_inv _ _ _ _ _ _ H Hexp). lia.
Qed.

(** Edge cases of the probe.  On an empty range it returns [null] without a
    read, whatever the pool id; on a non-empty range whose first slot cannot
    be computed (a pool id that is no 32-byte hex string, a negative first
    index) it fails with that error before any read. *)
Theorem probe_edge_cases
    (poolId expected : string) (first last : Z) (sent : list Request) :
  (last < first ->
   probe keccak256 provider poolId expected first last sent = (Return None, sent))
  /\ (first <= last ->
      forall e, calculateStorageSlot keccak256 poolId first = Throw e ->
                probe keccak256 provider poolId expected first last sent = (Throw e, sent))
  /\ (first <= last ->
      (forall key, getBytes poolId = Some key -> List.length key <> 32%nat) ->
      probe keccak256 provider poolId expected first last sent = (Throw EncodingError, sent))
  /\ (first <= last -> first < 0 ->
      probe keccak256 provider poolId expected first last sent = (Throw EncodingError, sent)).
Proof.
  assert (first <= last ->
          forall e, calculateStorageSlot keccak256 poolId first = Throw e ->
                    probe keccak256 provider poolId expected first last sent = (Throw e, sent))
    as Hthrow.
  { intros Hrange e He. unfold probe.
    replace (Z.to_nat (last + 1 - first)) with (S (Z.to_nat (last - first))) by lia.
    now rewrite probeFrom_step, He. }
  split; [| split; [exact Hthrow | split]].
  - intros Hempty. unfold probe.
    replace (Z.to_nat (last + 1 - first)) with 0%nat by lia. reflexivity.
  - intros Hrange Hbad. apply Hthrow; [exact Hrange |].
    rewrite calculateStorageSlot_cases.
    destruct (getBytes poolId) as [key |]; [| reflexivity].
    destruct (Nat.eqb_spec (List.length key) 32) as [Hlen | _]; [| reflexivity].
    now contradiction (Hbad key eq_refl).
  - intros Hrange Hneg. apply Hthrow; [exact Hrange |].
    rewrite calculateStorageSlot_cases.
    destruct (getBytes poolId) as [key |]; [| reflexivity].
    replace (0 <=? first) with false by (symmetry; apply Z.leb_gt; lia).
    now rewrite andb_false_r.
Qed.

(** With a well-formed key and indices that fit, the loop always returns,
    after at least one and at most [count] reads, all of the pool manager. *)
Lemma probeFrom_returns (poolId : string) (key : list byte) (expected : string)
    (count : nat) (first : Z) (sent : list Request) :
  getBytes poolId = Some key -> List.length key = 32%nat ->
  0 <= first -> first + Z.of_nat count <= 2 ^ 256 ->
  exists result reads,
    probeFrom keccak256 provider poolId expected count first sent
    = (Return result, sent ++ reads)
    /\ (List.length reads <= count)%nat
    /\ (count <> 0%nat -> reads <> [])
    /\ Forall (fun request => fst request = POOL_MANAGER_ADDRESS) reads.
Proof.
  intros Hkey Hlen. revert first sent.
  induction count as [| count IH]; intros first sent Hf Hl.
  - exists None, []. cbn. rewrite app_nil_r. repeat split; auto.
  - rewrite probeFrom_step,
      (calculateStorageSlot_key keccak256 poolId key Hkey Hlen first) by lia.
    cbv zeta.
    set (slot := hexlify (keccak256 (key ++ toBeBytes 32 first))).
    assert (exists result reads,
              probeFrom keccak256 provider poolId expected count (first + 1)
                (sent ++ [(POOL_MANAGER_ADDRESS, slot)])
              = (Return result, sent ++ reads)
              /\ (List.length reads <= S count)%nat /\ reads <> []
              /\ Forall (fun request => fst request = POOL_MANAGER_ADDRESS) reads)
      as Hnext.
    { destruct (IH (first + 1) (sent ++ [(POOL_MANAGER_ADDRESS, slot)]))
        as (result & reads & Heq & Hn & _ & Hall); [lia | lia |].
      exists result, ((POOL_MANAGER_ADDRESS, slot) :: reads).
      rewrite Heq, <- app_assoc. cbn [app List.length].
      repeat split; [lia | discriminate | now constructor]. }
    assert (exists result reads,
              (Return (Some first), sent ++ [(POOL_MANAGER_ADDRESS, slot)])
              = (@Return (option Z) result, sent ++ reads)
              /\ (List.length reads <= S count)%nat /\ reads <> []
              /\ Forall (fun request => fst request = POOL_MANAGER_ADDRESS) reads)
      as Hhere.
    { exists (Some first), [(POOL_MANAGER_ADDRESS, slot)].
      cbn [List.length]. repeat split; [lia | discriminate | now repeat constructor]. }
    destruct (provider POOL_MANAGER_ADDRESS slot) as [data | message].
    + destruct (negb (String.eqb data EmptyString) && String.eqb data expected).
      * destruct Hhere as (r & reads & ? & ? & ? & ?). exists r, reads. auto.
      * destruct Hnext as (r & reads & ? & ? & ? & ?). exists r, reads. auto.
    + destruct Hnext as (r & reads & ? & ? & ? & ?). exists r, reads. auto.
Qed.

(** [findCorrectPoolsSlot] never fails, whatever the hasher and the node:
    it returns [null] or an index between 0 and 20, after at least one and
    at most 21 reads, all of them storage reads of the pool manager. *)
Theorem findCorrectPoolsSlot_always_returns (sent : list Request) :
  exists result reads,
    findCorrectPoolsSlot keccak256 provider sent = (Return result, sent ++ reads)
    /\ (result = None \/ exists i, result = Some i /\ 0 <= i <= 20)
    /\ (1 <= List.length reads <= 21)%nat
    /\ Forall (fun request => fst request = POOL_MANAGER_ADDRESS) reads.
Proof.
  destruct (probeFrom_returns KNOWN_POOL_ID Scenario.key EXPECTED_RAW_DATA 21 0 sent
              eq_refl eq_refl) as (result & reads & Heq & Hn & Hne & Hall);
    [lia | cbn; lia |].
  exists result, reads.
  change (findCorrectPoolsSlot keccak256 provider sent)
    with (probeFrom keccak256 provider KNOWN_POOL_ID EXPECTED_RAW_DATA 21 0 sent).
  split; [exact Heq |]. split; [| split; [| exact Hall]].
  - destruct result as [i |]; [right | now left].
    exists i. split; [reflexivity |].
    destruct (probeFrom_found_inv _ _ _ _ _ _ _ Heq) as (Hi & _). lia.
  - split; [| exact Hn].
    destruct reads; [now contradiction Hne | cbn; lia].
Qed.

End SlotFailures.

(** ** One slot, one entry; one identifier, one pool *)

Section Injectivity.

Import UniswapV4PoolReader StorageSlotFinder.

Variable keccak256 : Hasher.

Lemma hexlify_inj (a b : list byte) : hexlify a = hexlify b -> a = b.
Proof.
  intros H. pose proof (getBytes_hexlify a) as Ha.
  rewrite H, getBytes_hexlify in Ha. now injection Ha.
Qed.

Lemma app_inj_length {A : Type} (a b c d : list A) :
  List.length a = List.length c -> a ++ b = c ++ d -> a = c /\ b = d.
Proof.
  revert c. induction a as [| x a IH]; intros [| y c] Hlen H; try discriminate Hlen.
  - now split.
  - injection Hlen as Hlen. injection H as -> H.
    destruct (IH c Hlen H) as [-> ->]. now split.
Qed.

(** Two words are equal only for values that agree modulo 2^256. *)
Lemma toBeBytes32_inj (x y : Z) :
  toBeBytes 32 x = toBeBytes 32 y -> x mod 2 ^ 256 = y mod 2 ^ 256.
Proof.
  intros H. apply (f_equal beValue) in H.
  now rewrite !beValue_toBeBytes in H.
Qed.

Lemma word_inj_unsigned (x y : Z) :
  0 <= x < 2 ^ 256 -> 0 <= y < 2 ^ 256 -> toBeBytes 32 x = toBeBytes 32 y -> x = y.
Proof.
  intros Hx Hy H. apply toBeBytes32_inj in H.
  now rewrite !Z.mod_small in H by assumption.
Qed.

Lemma word_inj_int24 (x y : Z) :
  - 2 ^ 23 <= x < 2 ^ 23 -> - 2 ^ 23 <= y < 2 ^ 23 ->
  toBeBytes 32 x = toBeBytes 32 y -> x = y.
Proof.
  intros Hx Hy H. apply toBeBytes32_inj in H.
  assert (forall t, - 2 ^ 23 <= t < 2 ^ 23 ->
            t mod 2 ^ 256 = if t <? 0 then t + 2 ^ 256 else t) as Hmod.
  { intros t Ht. destruct (Z.ltb_spec t 0).
    - rewrite <- (Z.mod_add t 1 (2 ^ 256)) by lia. apply Z.mod_small. lia.
    - apply Z.mod_small. lia. }
  rewrite (Hmod x Hx), (Hmod y Hy) in H.
  destruct (Z.ltb_spec x 0), (Z.ltb_spec y 0); lia.
Qed.

Lemma word_app_inj (x y : Z) (r s : list byte) :
  toBeBytes 32 x ++ r = toBeBytes 32 y ++ s -> toBeBytes 32 x = toBeBytes 32 y /\ r = s.
Proof. apply app_inj_length. now rewrite !length_toBeBytes. Qed.

Lemma calculateStorageSlot_return_inv (poolId : string) (n : Z) (slot : string) :
  calculateStorageSlot keccak256 poolId n = Return slot ->
  exists key, getBytes poolId = Some key /\ List.length key = 32%nat
              /\ 0 <= n < 2 ^ 256
              /\ slot = hexlify (keccak256 (key ++ toBeBytes 32 n)).
Proof.
  rewrite calculateStorageSlot_cases.
  destruct (getBytes poolId) as [key |]; [| discriminate].
  destruct (Nat.eqb_spec (List.length key) 32) as [Hlen | _]; [| discriminate].
  destruct (Z.leb_spec 0 n); [| discriminate].
  destruct (Z.ltb_spec n (2 ^ 256)); [| discriminate].
  cbn [andb]. intros Hret. injection Hret as <-. exists key. repeat split; auto; lia.
Qed.

(** One slot, one entry.  The slot depends on the pool id through its bytes
    only (two spellings of the same 32 bytes, such as [0x..] and [0X..],
    give the same outcome), and two derivations that return the same slot
    were given the same 32 bytes and the same index, unless the hasher maps
    two different 64-byte messages to one digest. *)
Theorem slot_determines_key_and_index
    (poolId1 poolId2 : string) (n1 n2 : Z) (slot : string) :
  (forall key,
      getBytes poolId1 = Some key -> getBytes poolId2 = Some key ->
      calculateStorageSlot keccak256 poolId1 n1 = calculateStorageSlot keccak256 poolId2 n1)
  /\ (calculateStorageSlot keccak256 poolId1 n1 = Return slot ->
      calculateStorageSlot keccak256 poolId2 n2 = Return slot ->
      (exists key, getBytes poolId1 = Some key /\ getBytes poolId2 = Some key
                   /\ List.length key = 32%nat /\ n1 = n2)
      \/ exists m1 m2 : list byte,
           m1 <> m2 /\ List.length m1 = 64%nat /\ List.length m2 = 64%nat
           /\ keccak256 m1 = keccak256 m2).
Proof.
  split.
  - intros key Hk1 Hk2. now rewrite !calculateStorageSlot_cases, Hk1, Hk2.
  - intros H1 H2.
    destruct (calculateStorageSlot_return_inv _ _ _ H1) as (k1 & Hk1 & Hl1 & Hn1 & E1).
    destruct (calculateStorageSlot_return_inv _ _ _ H2) as (k2 & Hk2 & Hl2 & Hn2 & E2).
    rewrite E1 in E2. apply hexlify_inj in E2.
    destruct (list_eq_dec byte_eq_dec (k1 ++ toBeBytes 32 n1) (k2 ++ toBeBytes 32 n2))
      as [Heq | Hne].
    + left. assert (List.length k1 = List.length k2) as Hlen by congruence.
      destruct (app_inj_length _ _ _ _ Hlen Heq) as [-> Hw].
      exists k2. split; [exact Hk1 |]. split; [exact Hk2 |]. split; [exact Hl2 |].
      now apply word_inj_unsigned.
    + right. exists (k1 ++ toBeBytes 32 n1), (k2 ++ toBeBytes 32 n2).
      rewrite !length_app, !length_toBeBytes, Hl1, Hl2. repeat split; auto.
Qed.

End Injectivity.

Section PoolIdentifier.

Import UniswapV4PoolReader.

Variable keccak256 : Hasher.

Local Abbreviation idOf a0 a1 fee ts h :=
  (hexlify (keccak256
     (toBeBytes 32 (Z.min a0 a1) ++ toBeBytes 32 (Z.max a0 a1) ++ toBeBytes 32 fee
      ++ toBeBytes 32 ts ++ toBeBytes 32 h))).

Local Abbreviation idIn x y fee ts h :=
  (hexlify (keccak256
     (toBeBytes 32 x ++ toBeBytes 32 y ++ toBeBytes 32 fee
      ++ toBeBytes 32 ts ++ toBeBytes 32 h))).

Local Abbreviation inRanges fee ts :=
  ((0 <=? fee) && (fee <? 2 ^ 24) && (- 2 ^ 23 <=? ts) && (ts <? 2 ^ 23)).

(** The encoding of the five parameters, on every input. *)
Lemma encode_pool_key (token0 token1 : string) (fee tickSpacing : Z) (hook : string) :
  AbiCoder_encode [TAddress; TAddress; TUint 24; TInt 24; TAddress]
    [JsString token0; JsString token1; JsNumber fee; JsNumber tickSpacing; JsString hook]
  = match parseAddress token0, parseAddress token1, parseAddress hook with
    | Some x, Some y, Some h =>
        if inRanges fee tickSpacing
        then Return (toBeBytes 32 x ++ toBeBytes 32 y ++ toBeBytes 32 fee
                     ++ toBeBytes 32 tickSpacing ++ toBeBytes 32 h)
        else Throw EncodingError
    | _, _, _ => Throw EncodingError
    end.
Proof.
  cbn [AbiCoder_encode encodeValue bindOutcome].
  change (validWidth 24) with true. change (24 - 1) with 23. cbn [andb].
  destruct (parseAddress token0), (parseAddress token1), (parseAddress hook),
    (0 <=? fee), (fee <? 2 ^ 24), (- 2 ^ 23 <=? tickSpacing), (tickSpacing <? 2 ^ 23);
    cbn [andb bindOutcome]; rewrite ?app_nil_r; reflexivity.
Qed.

(** The outcome of [calculatePoolId], on every input, from the pair
    [[token0, token1]]. *)
Lemma calculatePoolId_cases
    (currency0 currency1 : string) (fee tickSpacing : Z) (hookAddress : option string) :
  calculatePoolId keccak256 currency0 currency1 fee tickSpacing hookAddress
  = match parseAddress (fst (sortCurrencies currency0 currency1)),
          parseAddress (snd (sortCurrencies currency0 currency1)),
          parseAddress (hookOrZero hookAddress) with
    | Some x, Some y, Some h =>
        if inRanges fee tickSpacing
        then Return (idIn x y fee tickSpacing h)
        else Throw EncodingError
    | _, _, _ => Throw EncodingError
    end.
Proof.
  unfold calculatePoolId. cbv zeta.
  destruct (sortCurrencies currency0 currency1) as [token0 token1].
  rewrite encode_pool_key. cbn [fst snd].
  destruct (parseAddress token0), (parseAddress token1),
    (parseAddress (hookOrZero hookAddress)); try reflexivity.
  destruct (inRanges fee tickSpacing); reflexivity.
Qed.

(** The same on two well-formed currencies. *)
Lemma calculatePoolId_parsed
    (currency0 currency1 : string) (fee tickSpacing : Z) (hookAddress : option string)
    (a0 a1 : Z) :
  parseAddress currency0 = Some a0 -> parseAddress currency1 = Some a1 ->
  calculatePoolId keccak256 currency0 currency1 fee tickSpacing hookAddress
  = match parseAddress (hookOrZero hookAddress) with
    | Some h =>
        if inRanges fee tickSpacing
        then Return (if String.ltb (toLowerCase currency0) (toLowerCase currency1)
                     then idIn a0 a1 fee tickSpacing h
                     else idIn a1 a0 fee tickSpacing h)
        else Throw EncodingError
    | None => Throw EncodingError
    end.
Proof.
  intros H0 H1. rewrite calculatePoolId_cases. unfold sortCurrencies.
  destruct (String.ltb (toLowerCase currency0) (toLowerCase currency1));
    cbn [fst snd]; rewrite H0, H1; reflexivity.
Qed.

Lemma inRanges_spec (fee tickSpacing : Z) :
  inRanges fee tickSpacing = true
  <-> 0 <= fee < 2 ^ 24 /\ - 2 ^ 23 <= tickSpacing < 2 ^ 23.
Proof.
  rewrite !andb_true_iff, !Z.leb_le, !Z.ltb_lt. lia.
Qed.

Lemma calculatePoolId_return_inv
    (currency0 currency1 : string) (fee tickSpacing : Z) (hookAddress : option string)
    (identifier : string) :
  calculatePoolId keccak256 currency0 currency1 fee tickSpacing hookAddress
  = Return identifier ->
  exists a0 a1 h,
    parseAddress currency0 = Some a0 /\ parseAddress currency1 = Some a1
    /\ parseAddress (hookOrZero hookAddress) = Some h
    /\ 0 <= fee < 2 ^ 24 /\ - 2 ^ 23 <= tickSpacing < 2 ^ 23
    /\ (identifier = idIn a0 a1 fee tickSpacing h
        \/ identifier = idIn a1 a0 fee tickSpacing h).
Proof.
  rewrite calculatePoolId_cases. unfold sortCurrencies.
  destruct (String.ltb (toLowerCase currency0) (toLowerCase currency1)); cbn [fst snd].
  - destruct (parseAddress currency0) as [a0 |]; [| discriminate].
    destruct (parseAddress currency1) as [a1 |]; [| discriminate].
    destruct (parseAddress (hookOrZero hookAddress)) as [h |]; [| discriminate].
    destruct (inRanges fee tickSpacing) eqn:Hin; [| discriminate].
    apply inRanges_spec in Hin. intros Hret. injection Hret as <-.
    exists a0, a1, h. repeat split; tauto.
  - destruct (parseAddress currency1) as [a1 |]; [| discriminate].
    destruct (parseAddress currency0) as [a0 |]; [| discriminate].
    destruct (parseAddress (hookOrZero hookAddress)) as [h |]; [| discriminate].
    destruct (inRanges fee tickSpacing) eqn:Hin; [| discriminate].
    apply inRanges_spec in Hin. intros Hret. injection Hret as <-.
    exists a0, a1, h. repeat split; tauto.
Qed.

(** [calculatePoolId] on well-formed addresses: the two currencies and the
    hook (the zero address when left out).  It returns an identifier exactly
    when the fee fits 24 bits without sign (2^24 - 1 is accepted, 2^24 is
    not) and the tick spacing fits 24 bits with sign; the identifier is the
    digest of five words, the two addresses in the order of their
    lower-cased texts, which is smaller address first when the two are
    written as hex digits in the same form.  A fee or a tick spacing out of
    range ends in an EncodingError, the only error thrown. *)
Theorem calculatePoolId_outcome
    (currency0 currency1 : string) (fee tickSpacing : Z) (hookAddress : option string)
    (a0 a1 h : Z) :
  parseAddress currency0 = Some a0 ->
  parseAddress currency1 = Some a1 ->
  parseAddress (hookOrZero hookAddress) = Some h ->
  (forall identifier,
      calculatePoolId keccak256 currency0 currency1 fee tickSpacing hookAddress
      = Return identifier
      <-> 0 <= fee < 2 ^ 24 /\ - 2 ^ 23 <= tickSpacing < 2 ^ 23
          /\ identifier
             = (if String.ltb (toLowerCase currency0) (toLowerCase currency1)
                then idIn a0 a1 fee tickSpacing h
                else idIn a1 a0 fee tickSpacing h))
  /\ (sameHexForm currency0 currency1 = true ->
      0 <= fee < 2 ^ 24 -> - 2 ^ 23 <= tickSpacing < 2 ^ 23 ->
      calculatePoolId keccak256 currency0 currency1 fee tickSpacing hookAddress
      = Return (idOf a0 a1 fee tickSpacing h))
  /\ (fee < 0 \/ 2 ^ 24 <= fee \/ tickSpacing < - 2 ^ 23 \/ 2 ^ 23 <= tickSpacing ->
      calculatePoolId keccak256 currency0 currency1 fee tickSpacing hookAddress
      = Throw EncodingError)
  /\ (forall e,
        calculatePoolId keccak256 currency0 currency1 fee tickSpacing hookAddress
        = Throw e ->
        e = EncodingError
        /\ (fee < 0 \/ 2 ^ 24 <= fee \/ tickSpacing < - 2 ^ 23 \/ 2 ^ 23 <= tickSpacing)).
Proof.
  intros H0 H1 Hh.
  pose proof (calculatePoolId_parsed currency0 currency1 fee tickSpacing hookAddress
                a0 a1 H0 H1) as Hcases.
  rewrite Hh in Hcases. pose proof (inRanges_spec fee tickSpacing) as Hin.
  split; [| split; [| split]].
  - intros identifier. rewrite Hcases.
    destruct (inRanges fee tickSpacing).
    + split.
      * intros Hret. injection Hret as <-. split; [tauto |]. split; [tauto |].
        reflexivity.
      * intros (_ & _ & ->). reflexivity.
    + split; [discriminate |]. intros (Hfee & Hts & _).
      assert (false = true) as Habs by tauto. discriminate Habs.
  - intros Hsame Hfee Hts. now apply calculatePoolId_wellformed.
  - intros Hout. rewrite Hcases.
    destruct (inRanges fee tickSpacing); [| reflexivity].
    assert (0 <= fee < 2 ^ 24 /\ - 2 ^ 23 <= tickSpacing < 2 ^ 23) by tauto. lia.
  - intros e. rewrite Hcases.
    destruct (inRanges fee tickSpacing) eqn:E; [discriminate |].
    intros Hthrow. injection Hthrow as <-. split; [reflexivity |].
    destruct (Z.leb_spec 0 fee); destruct (Z.ltb_spec fee (2 ^ 24));
      destruct (Z.leb_spec (- 2 ^ 23) tickSpacing);
      destruct (Z.ltb_spec tickSpacing (2 ^ 23)); try lia; discriminate E.
Qed.

(** The identifier and the spelling of the addresses.  Two calls whose
    currencies and hooks denote the same three addresses, each pair of
    currencies written as hex digits in one form (both with the prefix [0x]
    or both without it), give the same outcome; and a call on the
    lower-cased texts of addresses written as hex digits gives the outcome
    of the call on the texts themselves (a check-summed and a lower-case
    spelling give one identifier). *)
Theorem calculatePoolId_spelling
    (currency0 currency1 hook currency0' currency1' hook' : string) (fee tickSpacing : Z)
    (a0 a1 h : Z) :
  parseAddress currency0 = Some a0 ->
  parseAddress currency1 = Some a1 ->
  parseAddress hook = Some h ->
  (parseAddress currency0' = Some a0 ->
   parseAddress currency1' = Some a1 ->
   parseAddress hook' = Some h ->
   sameHexForm currency0 currency1 = true ->
   sameHexForm currency0' currency1' = true ->
   calculatePoolId keccak256 currency0' currency1' fee tickSpacing (Some hook')
   = calculatePoolId keccak256 currency0 currency1 fee tickSpacing (Some hook))
  /\ (isHexAddress currency0 = true ->
      isHexAddress currency1 = true ->
      isHexAddress hook = true ->
      calculatePoolId keccak256 (toLowerCase currency0) (toLowerCase currency1)
        fee tickSpacing (Some (toLowerCase hook))
      = calculatePoolId keccak256 currency0 currency1 fee tickSpacing (Some hook)).
Proof.
  intros H0 H1 Hh. split.
  - intros E0 E1 Eh Hsame Hsame'.
    rewrite (calculatePoolId_parsed currency0' currency1' _ _ _ a0 a1 E0 E1),
      (calculatePoolId_parsed currency0 currency1 _ _ _ a0 a1 H0 H1).
    rewrite (ltb_toLowerCase_addresses _ _ _ _ E0 E1 Hsame'),
      (ltb_toLowerCase_addresses _ _ _ _ H0 H1 Hsame).
    cbn [hookOrZero]. now rewrite Eh, Hh.
  - intros Hhex0 Hhex1 Hhexh.
    rewrite (calculatePoolId_parsed (toLowerCase currency0) (toLowerCase currency1)
               _ _ _ a0 a1 (parseAddress_toLowerCase _ _ Hhex0 H0)
               (parseAddress_toLowerCase _ _ Hhex1 H1)),
      (calculatePoolId_parsed currency0 currency1 _ _ _ a0 a1 H0 H1).
    rewrite !toLowerCase_idempotent. cbn [hookOrZero].
    now rewrite (parseAddress_toLowerCase _ _ Hhexh Hh), Hh.
Qed.

(** One identifier, one pool.  Two calls that return the same identifier
    were given the same two currency addresses, in either order, the same
    fee, the same tick spacing and the same hook address, unless the hasher
    maps two different 160-byte messages to one digest. *)
Theorem identifier_determines_pool
    (c0 c1 c0' c1' : string) (fee fee' ts ts' : Z) (hook hook' : option string)
    (a0 a1 h a0' a1' h' : Z) (identifier : string) :
  parseAddress c0 = Some a0 -> parseAddress c1 = Some a1 ->
  parseAddress (hookOrZero hook) = Some h ->
  parseAddress c0' = Some a0' -> parseAddress c1' = Some a1' ->
  parseAddress (hookOrZero hook') = Some h' ->
  calculatePoolId keccak256 c0 c1 fee ts hook = Return identifier ->
  calculatePoolId keccak256 c0' c1' fee' ts' hook' = Return identifier ->
  (((a0 = a0' /\ a1 = a1') \/ (a0 = a1' /\ a1 = a0'))
   /\ fee = fee' /\ ts = ts' /\ h = h')
  \/ exists m m' : list byte,
       m <> m' /\ List.length m = 160%nat /\ List.length m' = 160%nat
       /\ keccak256 m = keccak256 m'.
Proof.
  intros H0 H1 Hh H0' H1' Hh' Hid Hid'.
  destruct (calculatePoolId_return_inv _ _ _ _ _ _ Hid)
    as (x0 & x1 & xh & E0 & E1 & Eh & Hfee & Hts & Eid).
  destruct (calculatePoolId_return_inv _ _ _ _ _ _ Hid')
    as (y0 & y1 & yh & E0' & E1' & Eh' & Hfee' & Hts' & Eid').
  assert (x0 = a0) by congruence. assert (x1 = a1) by congruence.
  assert (xh = h) by congruence. assert (y0 = a0') by congruence.
  assert (y1 = a1') by congruence. assert (yh = h') by congruence. subst.
  pose proof (parseAddress_range _ _ H0) as R0.
  pose proof (parseAddress_range _ _ H1) as R1.
  pose proof (parseAddress_range _ _ Hh) as Rh.
  pose proof (parseAddress_range _ _ H0') as R0'.
  pose proof (parseAddress_range _ _ H1') as R1'.
  pose proof (parseAddress_range _ _ Hh') as Rh'.
  assert (forall x y x' y',
            0 <= x < 2 ^ 256 -> 0 <= y < 2 ^ 256 ->
            0 <= x' < 2 ^ 256 -> 0 <= y' < 2 ^ 256 ->
            idIn x y fee ts h = idIn x' y' fee' ts' h' ->
            (x = x' /\ y = y' /\ fee = fee' /\ ts = ts' /\ h = h')
            \/ exists m m' : list byte,
                 m <> m' /\ List.length m = 160%nat /\ List.length m' = 160%nat
                 /\ keccak256 m = keccak256 m') as Hwords.
  { intros x y x' y' Rx Ry Rx' Ry' E. apply hexlify_inj in E.
    match type of E with keccak256 ?m = keccak256 ?m' =>
      destruct (list_eq_dec byte_eq_dec m m') as [Heq | Hne];
        [left | right; exists m, m'] end.
    - destruct (word_app_inj _ _ _ _ Heq) as [Wx Heq1].
      destruct (word_app_inj _ _ _ _ Heq1) as [Wy Heq2].
      destruct (word_app_inj _ _ _ _ Heq2) as [Wfee Heq3].
      destruct (word_app_inj _ _ _ _ Heq3) as [Wts Wh].
      apply word_inj_unsigned in Wx; [| lia | lia].
      apply word_inj_unsigned in Wy; [| lia | lia].
      apply word_inj_unsigned in Wfee; [| lia | lia].
      apply word_inj_int24 in Wts; [| lia | lia].
      apply word_inj_unsigned in Wh; [| lia | lia].
      repeat split; assumption.
    - rewrite !length_app, !length_toBeBytes. repeat split; auto. }
  destruct Eid as [Eid | Eid]; destruct Eid' as [Eid' | Eid']; rewrite Eid in Eid'.
  - destruct (Hwords a0 a1 a0' a1' R0 R1 R0' R1' Eid') as [(? & ? & ? & ? & ?) | Hc];
      [left | right; exact Hc]. split; [left; now split | now repeat split].
  - destruct (Hwords a0 a1 a1' a0' R0 R1 R1' R0' Eid') as [(? & ? & ? & ? & ?) | Hc];
      [left | right; exact Hc]. split; [right; now split | now repeat split].
  - destruct (Hwords a1 a0 a0' a1' R1 R0 R0' R1' Eid') as [(? & ? & ? & ? & ?) | Hc];
      [left | right; exact Hc]. split; [right; now split | now repeat split].
  - destruct (Hwords a1 a0 a1' a0' R1 R0 R1' R0' Eid') as [(? & ? & ? & ? & ?) | Hc];
      [left | right; exact Hc]. split; [left; now split | now repeat split].
Qed.

End PoolIdentifier.

(** ** The formats of [debug.js] *)

Section DebugFormats.

Lemma bytesOfHex_shape (body : string) (bs : list byte) :
  bytesOfHex body = Some bs ->
  String.length body = (2 * List.length bs)%nat /\ allHexDigits body = true.
Proof.
  revert body. induction bs as [| b bs IH]; intros body H.
  - destruct body as [| hi [| lo r]]; [now split | discriminate H |].
    cbn [bytesOfHex] in H.
    destruct (hexDigitValue hi), (hexDigitValue lo), (bytesOfHex r); discriminate H.
  - destruct body as [| hi [| lo r]]; [discriminate H | discriminate H |].
    cbn [bytesOfHex] in H. cbn [allHexDigits String.length].
    destruct (hexDigitValue hi); [| discriminate H].
    destruct (hexDigitValue lo); [| discriminate H].
    destruct (bytesOfHex r) as [bs' |] eqn:Hr; [| discriminate H].
    injection H as _ <-. destruct (IH r Hr) as [Hlen Hall].
    split; [cbn [List.length]; lia | exact Hall].
Qed.

Lemma bytesOfHex_total (n : nat) (body : string) :
  String.length body = (2 * n)%nat -> allHexDigits body = true ->
  exists bs, bytesOfHex body = Some bs /\ List.length bs = n.
Proof.
  revert body. induction n as [| n IH]; intros body Hlen Hall.
  - destruct body; [now exists [] | discriminate Hlen].
  - destruct body as [| hi [| lo r]]; try (cbn in Hlen; lia).
    cbn [allHexDigits] in Hall. cbn [bytesOfHex].
    destruct (hexDigitValue hi) as [h |]; [| discriminate Hall].
    destruct (hexDigitValue lo) as [l |]; [| discriminate Hall].
    destruct (IH r) as (bs & -> & Hbs); [cbn in Hlen; lia | exact Hall |].
    eexists. split; [reflexivity |]. cbn [List.length]. now rewrite Hbs.
Qed.

(** The validity test of [debug.js] and the [bytes32] argument of the slot
    derivation.  The regular expression matches exactly the strings with
    the lower-case prefix [0x] that [getBytes] reads as 32 bytes.
    [getBytes] is the more liberal of the two on the prefix alone: the same
    digits after [0X] fail the test and are read as the same 32 bytes. *)
Theorem slotRegex_accepts_bytes32 (s : string) :
  (slotRegex s = true
   <-> hasHexPrefix s = true
       /\ exists bs, getBytes s = Some bs /\ List.length bs = 32%nat)
  /\ (slotRegex s = true ->
      slotRegex (String "0" (String "X" (slice2 s))) = false
      /\ getBytes (String "0" (String "X" (slice2 s))) = getBytes s).
Proof.
  unfold slotRegex, hasHexPrefix.
  destruct (stripHexPrefix s) as [body |] eqn:Hs.
  - apply stripHexPrefix_inv in Hs. subst s.
    cbn [getBytes slice2 stripHexPrefix Ascii.eqb Bool.eqb andb orb].
    split; [split |].
    + intros H. apply andb_true_iff in H. destruct H as [Hlen Hall].
      apply Nat.eqb_eq in Hlen. split; [reflexivity |]. now apply bytesOfHex_total.
    + intros (_ & bs & Hbs & Hlen). destruct (bytesOfHex_shape _ _ Hbs) as [Hl Hall].
      rewrite Hl, Hlen, Hall. reflexivity.
    + intros _. split; reflexivity.
  - split; [split |].
    + discriminate.
    + intros (Habs & _). discriminate Habs.
    + discriminate.
Qed.

Lemma length_hexOfBytes (bs : list byte) :
  String.length (hexOfBytes bs) = (2 * List.length bs)%nat.
Proof. induction bs as [| b bs IH]; cbn [hexOfBytes String.length List.length]; lia. Qed.

Lemma hexDigitChar_lower (d : Z) :
  0 <= d < 16 -> toLowerCaseChar (hexDigitChar d) = hexDigitChar d.
Proof.
  intros Hd.
  assert (d = 0 \/ d = 1 \/ d = 2 \/ d = 3 \/ d = 4 \/ d = 5 \/ d = 6 \/ d = 7 \/
          d = 8 \/ d = 9 \/ d = 10 \/ d = 11 \/ d = 12 \/ d = 13 \/ d = 14 \/ d = 15)
    as Hcases by lia.
  repeat (destruct Hcases as [-> | Hcases]; [reflexivity |]).
  subst d. reflexivity.
Qed.

(** The strings ethers returns are lower-case already. *)
Lemma toLowerCase_hexOfBytes (bs : list byte) : toLowerCase (hexOfBytes bs) = hexOfBytes bs.
Proof.
  induction bs as [| b bs IH]; [reflexivity |].
  pose proof (byteValue_range b) as Hb.
  cbn [hexOfBytes toLowerCase]. rewrite IH, !hexDigitChar_lower; [reflexivity | |].
  - apply Z.mod_pos_bound; lia.
  - split; [apply Z.div_pos; lia | apply Z.div_lt_upper_bound; lia].
Qed.

Lemma hexDigitValue_toUpperCaseChar (c : ascii) :
  hexDigitValue (toUpperCaseChar c) = hexDigitValue c.
Proof. destruct c as [[] [] [] [] [] [] [] []]; reflexivity. Qed.

Lemma parseHexDigits_toUpperCase (s : string) (acc : Z) :
  parseHexDigits acc (toUpperCase s) = parseHexDigits acc s.
Proof.
  revert acc. induction s as [| c s IH]; intros acc; [reflexivity |].
  cbn [toUpperCase parseHexDigits]. rewrite hexDigitValue_toUpperCaseChar.
  destruct (hexDigitValue c); [apply IH | reflexivity].
Qed.

Lemma bytesOfHex_toUpperCase (s : string) : bytesOfHex (toUpperCase s) = bytesOfHex s.
Proof.
  revert s. fix IH 1. intros [| hi [| lo r]]; [reflexivity | reflexivity |].
  cbn [toUpperCase bytesOfHex]. now rewrite !hexDigitValue_toUpperCaseChar, IH.
Qed.

(** Upper-casing a hex string of ethers also upper-cases the [x] of its
    prefix: the result fails the validity test, while [getBytes] reads the
    same bytes from it and [BigInt] the same number. *)
Lemma toUpperCase_hexlify (bs : list byte) :
  slotRegex (toUpperCase (hexlify bs)) = false
  /\ getBytes (toUpperCase (hexlify bs)) = Some bs
  /\ BigInt (toUpperCase (hexlify bs)) = BigInt (hexlify bs).
Proof.
  split; [reflexivity |]. split.
  - unfold hexlify. cbn [toUpperCase getBytes].
    change (toUpperCaseChar "0") with "0"%char. change (toUpperCaseChar "x") with "X"%char.
    cbn [Ascii.eqb Bool.eqb andb orb].
    rewrite bytesOfHex_toUpperCase. apply bytesOfHex_hexOfBytes.
  - destruct bs as [| b bs]; [reflexivity |].
    unfold hexlify, BigInt. cbn [hexOfBytes toUpperCase].
    change (toUpperCaseChar "0") with "0"%char. change (toUpperCaseChar "x") with "X"%char.
    cbn [Ascii.eqb Bool.eqb andb orb].
    exact (parseHexDigits_toUpperCase (hexOfBytes (b :: bs)) 0).
Qed.

Variable keccak256 : Hasher.

Local Abbreviation digest := (keccak256 (Scenario.key ++ toBeBytes 32 6)).

Lemma calculatedSlot_eq : Debug.calculatedSlot keccak256 = Return (hexlify digest).
Proof.
  unfold Debug.calculatedSlot, Debug.encodedSlot, Debug.POOL_STATE_SLOT.
  rewrite (encode_bytes32_uint256 Debug.poolId Scenario.key 6 eq_refl eq_refl); [reflexivity |].
  lia.
Qed.

(** The slot [debug.js] computes is well formed whenever the hasher returns
    32 bytes: it passes the validity test, padding its hex part to 64 digits
    changes nothing (option F is the slot itself), lower-casing changes
    nothing (formats 3 and 4 repeat formats 1 and 2), and its decimal form
    is a number below 2^256. *)
Theorem debug_slot_is_well_formed :
  (forall message, List.length (keccak256 message) = 32%nat) ->
  Debug.isValidHex keccak256 = Return true
  /\ Debug.optionF keccak256 = Debug.calculatedSlot keccak256
  /\ Debug.format3 keccak256 = Debug.calculatedSlot keccak256
  /\ Debug.optionD keccak256 = Debug.hexPart keccak256
  /\ exists value, 0 <= value < 2 ^ 256
       /\ Debug.decimalValue keccak256 = Return (Some (BigInt_toString value)).
Proof.
  intros Hlen. specialize (Hlen (Scenario.key ++ toBeBytes 32 6)).
  unfold Debug.isValidHex, Debug.optionF, Debug.format3, Debug.optionD, Debug.hexPart,
    Debug.decimalValue.
  rewrite calculatedSlot_eq. cbn [bindOutcome].
  split; [| split; [| split; [| split]]].
  - f_equal. unfold slotRegex, hexlify. cbn [stripHexPrefix Ascii.eqb Bool.eqb andb].
    rewrite length_hexOfBytes, Hlen.
    exact (proj2 (bytesOfHex_shape _ _ (bytesOfHex_hexOfBytes digest))).
  - f_equal. unfold hexlify at 1. cbn [slice2]. unfold padStart.
    rewrite length_hexOfBytes, Hlen. reflexivity.
  - f_equal. unfold hexlify. cbn [toLowerCase].
    now rewrite toLowerCase_hexOfBytes.
  - f_equal. unfold hexlify. cbn [slice2]. apply toLowerCase_hexOfBytes.
  - exists (beValue digest). split.
    + pose proof (beValue_range digest) as Hr. rewrite Hlen in Hr.
      change (256 ^ Z.of_nat 32) with (2 ^ 256) in Hr. exact Hr.
    + rewrite BigInt_hexlify; [reflexivity |].
      intros E. rewrite E in Hlen. discriminate Hlen.
Qed.

(** Option C of [debug.js], the upper-cased slot, whatever the hasher: it
    starts with [0X] and fails the validity test of the script, yet it
    spells the same bytes and the same number as the slot, and the slot
    derivation takes it as a pool id like the slot itself. *)
Theorem debug_uppercase_slot_fails_the_test_only :
  exists slot upper,
    Debug.calculatedSlot keccak256 = Return slot
    /\ Debug.optionC keccak256 = Return upper
    /\ slot = hexlify digest
    /\ upper = toUpperCase slot
    /\ slotRegex upper = false
    /\ getBytes upper = Some digest
    /\ getBytes slot = Some digest
    /\ BigInt upper = BigInt slot
    /\ forall n, StorageSlotFinder.calculateStorageSlot keccak256 upper n
                 = StorageSlotFinder.calculateStorageSlot keccak256 slot n.
Proof.
  exists (hexlify digest), (toUpperCase (hexlify digest)).
  unfold Debug.optionC. rewrite calculatedSlot_eq. cbn [bindOutcome].
  destruct (toUpperCase_hexlify digest) as (Hre & Hget & Hbig).
  split; [reflexivity |]. split; [reflexivity |]. split; [reflexivity |].
  split; [reflexivity |]. split; [exact Hre |]. split; [exact Hget |].
  split; [apply getBytes_hexlify |]. split; [exact Hbig |].
  intros n. now rewrite !calculateStorageSlot_cases, Hget, getBytes_hexlify.
Qed.

End DebugFormats.

(** ** The further properties on the constants of the scripts *)

(** The fields of the observed word, packed and read back. *)
Lemma decode_round_trip_observed :
  UniswapV4PoolReader.signedTick_of
    (packPoolState 0x085a6afa601db20218ff54 (-179364) 0 20000 0) = -179364.
Proof.
  apply (decode_round_trip 0x085a6afa601db20218ff54 (-179364) 0 20000 0); lia.
Defined.

(** The 32 bytes of the observed word decode to its four fields. *)
Lemma decodePoolState_total_observed :
  UniswapV4PoolReader.decodePoolState StorageSlotFinder.EXPECTED_RAW_DATA
  = Some {| UniswapV4PoolReader.sqrtPriceX96 := "10098392936699872302137172";
            UniswapV4PoolReader.tick := "-179364";
            UniswapV4PoolReader.protocolFee := "0";
            UniswapV4PoolReader.lpFee := "20000";
            UniswapV4PoolReader.rawData := StorageSlotFinder.EXPECTED_RAW_DATA |}.
Proof.
  apply (proj1 (proj2 (proj2 (decodePoolState_total
           (toBeBytes 32
              0x000000004e20000000fd435c000000000000000000085a6afa601db20218ff54)
           eq_refl)))).
Defined.

(** For the observed word [testSpecificSlots] prints the tick 16597852 where
    [decodePoolState] gives -179364. *)
Lemma testSpecificSlots_observed_word :
  UniswapV4PoolReader.tick_of
    0x000000004e20000000fd435c000000000000000000085a6afa601db20218ff54
  = UniswapV4PoolReader.signedTick_of
      0x000000004e20000000fd435c000000000000000000085a6afa601db20218ff54 + 2 ^ 24.
Proof.
  apply (testSpecificSlots_prints_unsigned_tick 6 StorageSlotFinder.EXPECTED_RAW_DATA
           0x000000004e20000000fd435c000000000000000000085a6afa601db20218ff54).
  - reflexivity.
  - discriminate.
  - vm_compute. reflexivity.
Defined.

(** The index the probe returns on the node of the scenario. *)
Lemma probe_result_sound_scenario :
  0 <= 6 <= 20
  /\ (exists slot,
        StorageSlotFinder.calculateStorageSlot Keccak.keccak256
          StorageSlotFinder.KNOWN_POOL_ID 6 = Return slot
        /\ Scenario.node StorageSlotFinder.POOL_MANAGER_ADDRESS slot
           = Resolved StorageSlotFinder.EXPECTED_RAW_DATA)
  /\ (forall j slot, 0 <= j < 6 ->
        StorageSlotFinder.calculateStorageSlot Keccak.keccak256
          StorageSlotFinder.KNOWN_POOL_ID j = Return slot ->
        Scenario.node StorageSlotFinder.POOL_MANAGER_ADDRESS slot
        <> Resolved StorageSlotFinder.EXPECTED_RAW_DATA).
Proof.
  apply (probe_result_sound Keccak.keccak256 Scenario.node
           StorageSlotFinder.KNOWN_POOL_ID StorageSlotFinder.EXPECTED_RAW_DATA 0 20 []
           (snd (StorageSlotFinder.findCorrectPoolsSlot Keccak.keccak256 Scenario.node []))
           (Some 6)).
  vm_compute. reflexivity.
Defined.

(** The empty range 5..4 is probed without a read. *)
Lemma probe_empty_range :
  StorageSlotFinder.probe Keccak.keccak256 Scenario.deadNode
    StorageSlotFinder.KNOWN_POOL_ID StorageSlotFinder.EXPECTED_RAW_DATA 5 4 []
  = (Return None, []).
Proof.
  apply (probe_edge_cases Keccak.keccak256 Scenario.deadNode
           StorageSlotFinder.KNOWN_POOL_ID StorageSlotFinder.EXPECTED_RAW_DATA 5 4 []).
  reflexivity.
Defined.

(** The known pool id and its upper-case spelling, [0X] included, are two
    strings for the same 32 bytes: they give the same slot, and from the
    slot the theorem reads back the bytes and the index. *)
Lemma slot_of_same_bytes :
  StorageSlotFinder.KNOWN_POOL_ID <> Scenario.upperPoolId
  /\ StorageSlotFinder.calculateStorageSlot Keccak.keccak256
       StorageSlotFinder.KNOWN_POOL_ID 6
     = StorageSlotFinder.calculateStorageSlot Keccak.keccak256 Scenario.upperPoolId 6
  /\ ((exists key,
          getBytes StorageSlotFinder.KNOWN_POOL_ID = Some key
          /\ getBytes Scenario.upperPoolId = Some key
          /\ List.length key = 32%nat /\ 6 = 6)
      \/ exists m1 m2 : list byte,
           m1 <> m2 /\ List.length m1 = 64%nat /\ List.length m2 = 64%nat
           /\ Keccak.keccak256 m1 = Keccak.keccak256 m2).
Proof.
  split; [discriminate |]. split.
  - apply (proj1 (slot_determines_key_and_index Keccak.keccak256
                    StorageSlotFinder.KNOWN_POOL_ID Scenario.upperPoolId 6 6
                    Scenario.slot6) Scenario.key).
    + vm_compute. reflexivity.
    + vm_compute. reflexivity.
  - apply (proj2 (slot_determines_key_and_index Keccak.keccak256
                    StorageSlotFinder.KNOWN_POOL_ID Scenario.upperPoolId 6 6
                    Scenario.slot6)).
    + vm_compute. reflexivity.
    + vm_compute. reflexivity.
Defined.

(** The lower-case spelling of the parameters of [main]. *)
Lemma calculatePoolId_lower_case_main :
  UniswapV4PoolReader.calculatePoolId Keccak.keccak256
    (toLowerCase Scenario.currency0) (toLowerCase Scenario.currency1)
    Scenario.fee Scenario.tickSpacing (Some (toLowerCase Scenario.hookAddress))
  = UniswapV4PoolReader.calculatePoolId Keccak.keccak256
      Scenario.currency0 Scenario.currency1
      Scenario.fee Scenario.tickSpacing (Some Scenario.hookAddress).
Proof.
  apply (proj1 (calculatePoolId_spelling Keccak.keccak256
           Scenario.currency0 Scenario.currency1 Scenario.hookAddress
           (toLowerCase Scenario.currency0) (toLowerCase Scenario.currency1)
           (toLowerCase Scenario.hookAddress)
           Scenario.fee Scenario.tickSpacing
           0x77933D339C88458450676156820D6e28bCc98BF5
           0xfb4cCCd1485FD56C1E6BF93274778d2F7aBe546D
           0x70Fe3Fa2f8065898706674Acd03D7b2696161000
           ltac:(vm_compute; reflexivity) ltac:(vm_compute; reflexivity)
           ltac:(vm_compute; reflexivity)));
    vm_compute; reflexivity.
Defined.

(** The two orders of the currencies of [main] return one identifier, and
    the theorem reads the same pool from both calls. *)
Lemma identifier_determines_pool_main :
  (((0x77933D339C88458450676156820D6e28bCc98BF5
     = 0xfb4cCCd1485FD56C1E6BF93274778d2F7aBe546D
     /\ 0xfb4cCCd1485FD56C1E6BF93274778d2F7aBe546D
        = 0x77933D339C88458450676156820D6e28bCc98BF5)
    \/ (0x77933D339C88458450676156820D6e28bCc98BF5
        = 0x77933D339C88458450676156820D6e28bCc98BF5
        /\ 0xfb4cCCd1485FD56C1E6BF93274778d2F7aBe546D
           = 0xfb4cCCd1485FD56C1E6BF93274778d2F7aBe546D))
   /\ Scenario.fee = Scenario.fee /\ Scenario.tickSpacing = Scenario.tickSpacing
   /\ 0x70Fe3Fa2f8065898706674Acd03D7b2696161000
      = 0x70Fe3Fa2f8065898706674Acd03D7b2696161000)
  \/ exists m m' : list byte,
       m <> m' /\ List.length m = 160%nat /\ List.length m' = 160%nat
       /\ Keccak.keccak256 m = Keccak.keccak256 m'.
Proof.
  apply (identifier_determines_pool Keccak.keccak256
           Scenario.currency0 Scenario.currency1 Scenario.currency1 Scenario.currency0
           Scenario.fee Scenario.fee Scenario.tickSpacing Scenario.tickSpacing
           (Some Scenario.hookAddress) (Some Scenario.hookAddress)
           0x77933D339C88458450676156820D6e28bCc98BF5
           0xfb4cCCd1485FD56C1E6BF93274778d2F7aBe546D
           0x70Fe3Fa2f8065898706674Acd03D7b2696161000
           0xfb4cCCd1485FD56C1E6BF93274778d2F7aBe546D
           0x77933D339C88458450676156820D6e28bCc98BF5
           0x70Fe3Fa2f8065898706674Acd03D7b2696161000
           StorageSlotFinder.KNOWN_POOL_ID);
    vm_compute; reflexivity.
Defined.

(** The known pool id passes the validity test of [debug.js]. *)
Lemma slotRegex_known_pool_id : slotRegex StorageSlotFinder.KNOWN_POOL_ID = true.
Proof.
  apply (proj2 (proj1 (slotRegex_accepts_bytes32 StorageSlotFinder.KNOWN_POOL_ID))).
  split; [reflexivity |].
  exists Scenario.key. split; [vm_compute; reflexivity | reflexivity].
Defined.

(** With Keccak-256 the slot of [debug.js] passes its validity test. *)
Lemma debug_slot_is_well_formed_keccak :
  Debug.isValidHex Keccak.keccak256 = Return true.
Proof.
  apply (debug_slot_is_well_formed Keccak.keccak256). exact length_keccak256.
Defined.

(** A pool id of two bytes is rejected. *)
Lemma calculateStorageSlot_short_pool_id :
  StorageSlotFinder.calculateStorageSlot Keccak.keccak256 "0x1234" 6 = Throw EncodingError.
Proof.
  apply (proj1 (proj2 (proj2 (calculateStorageSlot_outcome Keccak.keccak256 "0x1234" 6)))).
  intros key Hkey. vm_compute in Hkey. injection Hkey as <-. discriminate.
Defined.

(** The fee 2^24 of the boundary is rejected. *)
Lemma calculatePoolId_fee_too_large :
  UniswapV4PoolReader.calculatePoolId Keccak.keccak256 Scenario.currency0
    Scenario.currency1 (2 ^ 24) Scenario.tickSpacing (Some Scenario.hookAddress)
  = Throw EncodingError.
Proof.
  apply (proj1 (proj2 (proj2 (calculatePoolId_outcome Keccak.keccak256
           Scenario.currency0 Scenario.currency1 (2 ^ 24) Scenario.tickSpacing
           (Some Scenario.hookAddress)
           0x77933D339C88458450676156820D6e28bCc98BF5
           0xfb4cCCd1485FD56C1E6BF93274778d2F7aBe546D
           0x70Fe3Fa2f8065898706674Acd03D7b2696161000
           ltac:(vm_compute; reflexivity) ltac:(vm_compute; reflexivity)
           ltac:(vm_compute; reflexivity))))).
  right. left. lia.
Defined.
